(** * Snapmaker J1 discovery plugin: a shallow embedding of
      [network/SnapmakerOutputDevicePlugin.py] and the properties of its
      discovery life cycle, message parsing and device registration. *)

From Stdlib Require Import NArith Lia String Ascii.
From Stdlib.Strings Require Import Byte.
From stdpp Require Import base option list gmap strings.

Local Open Scope N_scope.

(** ** Python values used by the plugin *)

(** A Python [str] is a sequence of Unicode code points, a [bytes] object a
    sequence of bytes. *)
Abbreviation str := (list N) (only parsing).
Abbreviation bytes := (list byte) (only parsing).

(** Literals with ASCII characters only. *)
Definition chr (a : ascii) : N := N_of_ascii a.
Arguments chr : simpl never.
Definition u (s : string) : str := chr <$> list_ascii_of_string s.
Definition b (s : string) : bytes := list_byte_of_string s.

(** The exceptions that the modelled code can raise. *)
Inductive exn := ValueError | AttributeError | TypeError | UnicodeDecodeError.

#[global] Instance exn_eq_dec : EqDecision exn.
Proof. solve_decision. Defined.

Inductive outcome (A : Type) : Type :=
| Ok (a : A)
| Raise (e : exn).
Arguments Ok {A} a.
Arguments Raise {A} e.

(** [s.split(sep)] for a separator of one character: the pieces between the
    occurrences of [sep], always at least one piece. *)
Fixpoint split (sep : N) (s : str) : list str :=
  match s with
  | [] => [[]]
  | c :: s' =>
      if decide (c = sep) then [] :: split sep s'
      else match split sep s' with
           | p :: ps => (c :: p) :: ps
           | [] => [[c]]
           end
  end.

(** [bytes.decode("utf-8")] in strict mode: [None] stands for
    [UnicodeDecodeError].  Overlong forms, surrogates, code points above
    U+10FFFF, stray continuation bytes and truncated sequences are refused. *)
Definition is_continuation (x : N) : bool := (128 <=? x) && (x <=? 191).

Definition in_range (lo hi x : N) : bool := (lo <=? x) && (x <=? hi).

Fixpoint utf8_decode (bs : bytes) : option str :=
  match bs with
  | [] => Some []
  | b0 :: r0 =>
      let x0 := Byte.to_N b0 in
      if x0 <? 128 then cons x0 <$> utf8_decode r0
      else if in_range 192 223 x0 then
        match r0 with
        | b1 :: r1 =>
            let x1 := Byte.to_N b1 in
            let cp := (x0 - 192) * 64 + (x1 - 128) in
            if is_continuation x1 && (128 <=? cp)
            then cons cp <$> utf8_decode r1 else None
        | _ => None
        end
      else if in_range 224 239 x0 then
        match r0 with
        | b1 :: b2 :: r2 =>
            let x1 := Byte.to_N b1 in
            let x2 := Byte.to_N b2 in
            let cp := (x0 - 224) * 4096 + (x1 - 128) * 64 + (x2 - 128) in
            if is_continuation x1 && is_continuation x2
               && (2048 <=? cp) && negb (in_range 55296 57343 cp)
            then cons cp <$> utf8_decode r2 else None
        | _ => None
        end
      else if in_range 240 247 x0 then
        match r0 with
        | b1 :: b2 :: b3 :: r3 =>
            let x1 := Byte.to_N b1 in
            let x2 := Byte.to_N b2 in
            let x3 := Byte.to_N b3 in
            let cp := (x0 - 240) * 262144 + (x1 - 128) * 4096
                      + (x2 - 128) * 64 + (x3 - 128) in
            if is_continuation x1 && is_continuation x2 && is_continuation x3
               && in_range 65536 1114111 cp
            then cons cp <$> utf8_decode r3 else None
        | _ => None
        end
      else None
  end.

Definition decode (bs : bytes) : outcome str :=
  match utf8_decode bs with
  | Some s => Ok s
  | None => Raise UnicodeDecodeError
  end.

(** ** The message codec: lines 65-79 of [__parseMessage] *)

(** The local variables of [__parseMessage] once the properties loop is
    done. *)
Record Advertisement := {
  device_id : str;
  name : str;
  address : str;
  properties : gmap (list N) (list N);
}.

(** [for part in parts[1:]]: segments without [":"] are skipped; the others
    are unpacked as [key, value = part.split(":")], which raises [ValueError]
    unless the split has exactly two pieces. *)
Fixpoint parse_properties (parts : list str) (properties : gmap (list N) (list N))
  : outcome (gmap (list N) (list N)) :=
  match parts with
  | [] => Ok properties
  | part :: rest =>
      if decide (chr ":" ∈ part) then
        match split (chr ":") part with
        | [key; value] => parse_properties rest (<[key := value]> properties)
        | _ => Raise ValueError
        end
      else parse_properties rest properties
  end.

(** [Ok None] is the early [return] on an invalid message. *)
Definition parse_fields (msg : str) : outcome (option Advertisement) :=
  match split (chr "|") msg with
  | [] => Ok None
  | part0 :: rest =>
      if decide (chr "@" ∈ part0) then
        let device_id := part0 in
        match split (chr "@") device_id with
        | [name; address] =>
            match parse_properties rest ∅ with
            | Ok properties =>
                Ok (Some {| device_id := device_id; name := name;
                            address := address; properties := properties |})
            | Raise e => Raise e
            end
        | _ => Raise ValueError
        end
      else Ok None
  end.

(** ** The Qt objects the plugin talks to

    External library objects are modelled by what the plugin reads from
    them. *)

Inductive NetworkLayerProtocol :=
| IPv4Protocol | IPv6Protocol | AnyIPProtocol | UnknownNetworkLayerProtocol.

#[global] Instance NetworkLayerProtocol_eq_dec : EqDecision NetworkLayerProtocol.
Proof. solve_decision. Defined.

Record QHostAddress := {
  isNull : bool;
  isLoopback : bool;
  protocol : NetworkLayerProtocol;
  toString : str;
}.

#[global] Instance QHostAddress_eq_dec : EqDecision QHostAddress.
Proof. solve_decision. Defined.

Record QNetworkAddressEntry := {
  ip : QHostAddress;
  broadcast : QHostAddress;
}.

#[global] Instance QNetworkAddressEntry_eq_dec : EqDecision QNetworkAddressEntry.
Proof. solve_decision. Defined.

Record QNetworkInterface := {
  addressEntries : list QNetworkAddressEntry;
}.

Record QNetworkDatagram := {
  isValid : bool;
  senderAddress : QHostAddress;
  data : bytes;
}.

(** A [QUdpSocket] object: the address and port it is bound to, if it is
    bound (no port stands for one chosen by the system), the datagrams
    waiting to be received, and the closure connected to [readyRead], given
    by the cell of the variable it captured. *)
Record QUdpSocket := {
  localAddress : option QHostAddress;
  localPort : option N;
  pendingDatagrams : list QNetworkDatagram;
  readyRead : option nat;
}.

(** An element of [self._discover_sockets]: the type comment of [__init__]
    announces sockets, [__prepare] appends [(socket, address_entry)] tuples.
    Sockets are references into the heap of socket objects. *)
Inductive pyobj :=
| PySocket (socket : nat)
| PyTuple (socket : nat) (address_entry : QNetworkAddressEntry).

(** Modelled from the spec: the device record class [SnapmakerJ1OutputDevice]
    (module [SnapmakerJ1OutputDevice] of this plugin), built from the device
    id, the address and the properties and keyed by its device id. *)
Record SnapmakerJ1OutputDevice := {
  getId : str;
  dev_address : str;
  dev_properties : gmap (list N) (list N);
}.

(** Calls that leave the plugin, in the order they are made. *)
Inductive Event :=
| TimerStart
| TimerStop
| AllInterfaces
| Bind (socket : nat) (address : QHostAddress) (port : option N)
| WriteDatagram (socket : nat) (payload : bytes) (host : QHostAddress) (port : N)
| Abort (socket : nat)
| GetOutputDevice (device_id : str)
| AddOutputDevice (device : SnapmakerJ1OutputDevice)
| LoggerInfo (message : string) (args : list str).

(** ** Program state *)

Record State := {
  (** [self._discover_timer.isActive()] *)
  timer_active : bool;
  (** [self._discover_sockets] *)
  discover_sockets : list pyobj;
  (** every [QUdpSocket] created so far, by reference *)
  heap : list QUdpSocket;
  (** the variable [socket] of each call of [__prepare], which the
      [readyRead] closures of that call share *)
  cells : list (option nat);
  (** Modelled from the spec: the device registry of the host application
      ([getOutputDeviceManager()]), with lookup by device id and insert. *)
  output_devices : gmap (list N) SnapmakerJ1OutputDevice;
  (** what [QNetworkInterface.allInterfaces()] returns when asked now *)
  interfaces : list QNetworkInterface;
  (** whether [bind] on this socket, with this address and port, succeeds
      when called now *)
  bind_succeeds : nat → QHostAddress → option N → bool;
  trace : list Event;
}.

Definition set_timer_active (v : bool) (st : State) : State :=
  {| timer_active := v; discover_sockets := discover_sockets st;
     heap := heap st; cells := cells st; output_devices := output_devices st;
     interfaces := interfaces st; bind_succeeds := bind_succeeds st;
     trace := trace st |}.

Definition set_discover_sockets (v : list pyobj) (st : State) : State :=
  {| timer_active := timer_active st; discover_sockets := v;
     heap := heap st; cells := cells st; output_devices := output_devices st;
     interfaces := interfaces st; bind_succeeds := bind_succeeds st;
     trace := trace st |}.

Definition set_heap (v : list QUdpSocket) (st : State) : State :=
  {| timer_active := timer_active st; discover_sockets := discover_sockets st;
     heap := v; cells := cells st; output_devices := output_devices st;
     interfaces := interfaces st; bind_succeeds := bind_succeeds st;
     trace := trace st |}.

Definition set_cells (v : list (option nat)) (st : State) : State :=
  {| timer_active := timer_active st; discover_sockets := discover_sockets st;
     heap := heap st; cells := v; output_devices := output_devices st;
     interfaces := interfaces st; bind_succeeds := bind_succeeds st;
     trace := trace st |}.

Definition set_output_devices (v : gmap (list N) SnapmakerJ1OutputDevice)
    (st : State) : State :=
  {| timer_active := timer_active st; discover_sockets := discover_sockets st;
     heap := heap st; cells := cells st; output_devices := v;
     interfaces := interfaces st; bind_succeeds := bind_succeeds st;
     trace := trace st |}.

Definition set_interfaces (v : list QNetworkInterface) (st : State) : State :=
  {| timer_active := timer_active st; discover_sockets := discover_sockets st;
     heap := heap st; cells := cells st; output_devices := output_devices st;
     interfaces := v; bind_succeeds := bind_succeeds st; trace := trace st |}.

Definition set_bind_succeeds (v : nat → QHostAddress → option N → bool)
    (st : State) : State :=
  {| timer_active := timer_active st; discover_sockets := discover_sockets st;
     heap := heap st; cells := cells st; output_devices := output_devices st;
     interfaces := interfaces st; bind_succeeds := v; trace := trace st |}.

Definition set_trace (v : list Event) (st : State) : State :=
  {| timer_active := timer_active st; discover_sockets := discover_sockets st;
     heap := heap st; cells := cells st; output_devices := output_devices st;
     interfaces := interfaces st; bind_succeeds := bind_succeeds st;
     trace := v |}.

(** ** A state monad with exceptions

    A raised exception keeps the state reached so far, as in Python. *)

Definition M (A : Type) : Type := State → outcome A * State.

#[global] Instance M_ret : MRet M := λ A a st, (Ok a, st).

#[global] Instance M_bind : MBind M := λ A B f m st,
  match m st with
  | (Ok a, st') => f a st'
  | (Raise e, st') => (Raise e, st')
  end.

Definition gets {A} (f : State → A) : M A := λ st, (Ok (f st), st).
Definition modify (f : State → State) : M unit := λ st, (Ok (), f st).
Definition raise {A} (e : exn) : M A := λ st, (Raise e, st).
Definition lift {A} (o : outcome A) : M A := λ st, (o, st).
Definition emit (ev : Event) : M unit :=
  modify (λ st, set_trace (trace st ++ [ev]) st).

(** [try: body except e: pass] *)
Definition try_except_pass (body : M unit) (e : exn) : M unit := λ st,
  match body st with
  | (Raise e', st') => if decide (e' = e) then (Ok (), st') else (Raise e', st')
  | r => r
  end.

(** [for x in l: body] *)
Fixpoint for_each {A} (l : list A) (body : A → M unit) : M unit :=
  match l with
  | [] => mret ()
  | x :: l' => body x;; for_each l' body
  end.

(** A [for] loop whose body updates one local variable. *)
Fixpoint for_fold {A B} (l : list A) (body : B → A → M B) (acc : B) : M B :=
  match l with
  | [] => mret acc
  | x :: l' => acc' ← body acc x; for_fold l' body acc'
  end.

(** ** Operations of the Qt objects *)

Definition DISCOVER_PORT : N := 20054.

Definition new_socket : QUdpSocket :=
  {| localAddress := None; localPort := None; pendingDatagrams := [];
     readyRead := None |}.

(** [QUdpSocket()]: a new object on the heap. *)
Definition QUdpSocket_new : M nat := λ st,
  (Ok (length (heap st)), set_heap (heap st ++ [new_socket]) st).

Definition update_socket (socket : nat) (f : QUdpSocket → QUdpSocket) : M unit :=
  modify (λ st, set_heap (alter f socket (heap st)) st).

(** [socket.bind(address, port)] and [socket.bind(address)].  The call
    returns whether the socket is now bound; when it fails the socket stays
    as it was.  The plugin drops the result. *)
Definition bind (socket : nat) (address : QHostAddress) (port : option N) : M bool :=
  emit (Bind socket address port);;
  ok ← gets (λ st, bind_succeeds st socket address port);
  (if ok : bool then
     update_socket socket (λ s,
       {| localAddress := Some address; localPort := port;
          pendingDatagrams := pendingDatagrams s; readyRead := readyRead s |})
   else mret ());;
  mret ok.

(** [socket.readyRead.connect(lambda: ...)], the closure being given by the
    cell of its free variable. *)
Definition readyRead_connect (socket : nat) (cell : nat) : M unit :=
  update_socket socket (λ s,
    {| localAddress := localAddress s; localPort := localPort s;
       pendingDatagrams := pendingDatagrams s; readyRead := Some cell |}).

Definition writeDatagram (socket : nat) (payload : bytes) (host : QHostAddress)
    (port : N) : M unit :=
  emit (WriteDatagram socket payload host port).

(** [socket.abort()]: the socket is closed and its buffers are dropped. *)
Definition abort (socket : nat) : M unit :=
  emit (Abort socket);;
  update_socket socket (λ s,
    {| localAddress := None; localPort := None;
       pendingDatagrams := []; readyRead := readyRead s |}).

Definition pending_of (socket : nat) (st : State) : list QNetworkDatagram :=
  from_option pendingDatagrams [] (heap st !! socket).

(** [socket.receiveDatagram()] takes the first pending datagram off the
    socket: what stays pending is [rest]. *)
Definition set_pending (socket : nat) (rest : list QNetworkDatagram) : M unit :=
  update_socket socket (λ s,
    {| localAddress := localAddress s; localPort := localPort s;
       pendingDatagrams := rest; readyRead := readyRead s |}).

(** [obj.abort()] on an element of [self._discover_sockets]: a tuple has no
    such attribute. *)
Definition call_abort (obj : pyobj) : M unit :=
  match obj with
  | PySocket socket => abort socket
  | PyTuple _ _ => raise AttributeError
  end.

(** [socket, address_entry = obj]: a socket object cannot be unpacked. *)
Definition unpack (obj : pyobj) : M (nat * QNetworkAddressEntry) :=
  match obj with
  | PyTuple socket address_entry => mret (socket, address_entry)
  | PySocket _ => raise TypeError
  end.

(** ** The device registry *)

Definition getOutputDevice (device_id : str) : M (option SnapmakerJ1OutputDevice) :=
  emit (GetOutputDevice device_id);;
  gets (λ st, output_devices st !! device_id).

Definition addOutputDevice (device : SnapmakerJ1OutputDevice) : M unit :=
  emit (AddOutputDevice device);;
  modify (λ st, set_output_devices (<[getId device := device]> (output_devices st)) st).

(** ** The plugin *)

Section Plugin.

(** [MACHINE_NAME] of the plugin's [config] module and
    [Platform.isWindows()]. *)
Variable MACHINE_NAME : str.
Variable Platform_isWindows : bool.

(** The state when [__init__] returns: timer created but not started, no
    channels.  The registry and the outcome of [bind] belong to the host and
    to the system: they are taken empty and successful here, and
    [reachable] lets them change at any time. *)
Definition __init__ (interfaces : list QNetworkInterface) : State :=
  {| timer_active := false; discover_sockets := []; heap := []; cells := [];
     output_devices := ∅; interfaces := interfaces;
     bind_succeeds := λ _ _ _, true; trace := [] |}.

(** The body of the inner loop of [__prepare]; [cell] is the variable
    [socket] of this call of [__prepare]. *)
Definition prepare_entry (cell : nat) (available_port : N)
    (address_entry : QNetworkAddressEntry) : M N :=
  let address := ip address_entry in
  if isLoopback address then mret available_port
  else if decide (protocol address ≠ IPv4Protocol) then mret available_port
  else
    emit (LoggerInfo "Discovering printers on network interface: %s"
                     [toString address]);;
    socket ← QUdpSocket_new;
    modify (λ st, set_cells (<[cell := Some socket]> (cells st)) st);;
    available_port ←
      (if Platform_isWindows then
         bind socket address (Some available_port);;
         mret (available_port + 1)
       else
         bind socket address None;;
         mret available_port);
    readyRead_connect socket cell;;
    modify (λ st, set_discover_sockets
                    (discover_sockets st ++ [PyTuple socket address_entry]) st);;
    mret available_port.

Definition __prepare : M unit :=
  modify (set_discover_sockets []);;
  let available_port := 20054 in
  cell ← (λ st, (Ok (length (cells st)), set_cells (cells st ++ [None]) st));
  emit AllInterfaces;;
  all ← gets interfaces;
  for_fold all (λ available_port interface,
    for_fold (addressEntries interface) (prepare_entry cell) available_port)
    available_port;;
  mret ().

Definition __discover : M unit :=
  socks ← gets discover_sockets;
  match socks with
  | [] => __prepare
  | _ :: _ => mret ()
  end;;
  socks ← gets discover_sockets;
  for_each socks (λ obj,
    '(socket, address_entry) ← unpack obj;
    writeDatagram socket (b "discover") (broadcast address_entry) DISCOVER_PORT).

(** Lines 86-90 of [__parseMessage]: an object found in the registry counts
    as true. *)
Definition register (adv : Advertisement) : M unit :=
  device ← getOutputDevice (device_id adv);
  match device with
  | Some _ => mret ()
  | None =>
      emit (LoggerInfo "Discovered Snapmaker J1: %s@%s" [name adv; address adv]);;
      let device := {| getId := device_id adv; dev_address := address adv;
                       dev_properties := properties adv |} in
      addOutputDevice device
  end.

Definition __parseMessage (ip : str) (msg : str) : M unit :=
  fields ← lift (parse_fields msg);
  match fields with
  | None => mret ()
  | Some adv =>
      let model := properties adv !! u "model" in
      if decide (model ≠ Some MACHINE_NAME) then mret ()
      else register adv
  end.

(** The [while] loop of [_readSocket] over the datagrams that are pending
    when it starts; none arrives while it runs. *)
Fixpoint drain (socket : nat) (pending : list QNetworkDatagram) : M unit :=
  match pending with
  | [] => mret ()
  | datagram :: rest =>
      set_pending socket rest;;
      (if isValid datagram && negb (isNull (senderAddress datagram)) then
         let ip := toString (senderAddress datagram) in
         try_except_pass
           (msg ← lift (decode (data datagram));
            __parseMessage ip msg)
           UnicodeDecodeError
       else mret ());;
      drain socket rest
  end.

Definition _readSocket (socket : nat) : M unit :=
  pending ← gets (pending_of socket);
  drain socket pending.

Definition start : M unit :=
  active ← gets timer_active;
  if negb active then
    modify (set_timer_active true);;
    emit TimerStart;;
    emit (LoggerInfo "Snapmaker J1 discovering started." [])
  else mret ().

Definition stop : M unit :=
  active ← gets timer_active;
  (if active : bool then
     modify (set_timer_active false);;
     emit TimerStop
   else mret ());;
  socks ← gets discover_sockets;
  for_each socks (λ socket, call_abort socket);;
  emit (LoggerInfo "Snapmaker J1 discovering stopped." []).

Definition startDiscovery : M unit := __discover.

(** [machine_name] is the property read from the global container stack. *)
Definition _onGlobalContainerStackChanged (machine_name : str) : M unit :=
  if decide (machine_name = MACHINE_NAME) then start else stop.

(** ** Signals

    The slots that Qt calls: the timer's [timeout] while the timer is active,
    and the closure connected to the [readyRead] of a socket, which reads
    the variable [socket] of the [__prepare] call that made it. *)

Definition timeout : M unit :=
  active ← gets timer_active;
  if active : bool then __discover else mret ().

Definition readyRead_emit (socket : nat) : M unit :=
  slot ← gets (λ st, s ← heap st !! socket; cell ← readyRead s; mjoin (cells st !! cell));
  match slot with
  | Some captured => _readSocket captured
  | None => mret ()
  end.

End Plugin.

(** ** Reachable states

    What can happen to a plugin object: calls of its public methods, the
    signals it is connected to, and changes of the environment (the set of
    network interfaces, the arrival of a datagram on a socket).  A step keeps
    the state that the call has reached, also when an exception leaves it.
    Between two steps the host application and its other plugins may write
    the registry, which they share with this plugin, and the system may
    change what [bind] will answer. *)

Inductive Action :=
| DoStart
| DoStop
| DoStartDiscovery
| DoTimeout
| DoReadyRead (socket : nat)
| DoGlobalContainerStackChanged (machine_name : str)
| EnvInterfaces (interfaces : list QNetworkInterface)
| EnvDatagram (socket : nat) (datagram : QNetworkDatagram).

Definition run (MACHINE_NAME : str) (Platform_isWindows : bool) (a : Action)
  : M unit :=
  match a with
  | DoStart => start
  | DoStop => stop
  | DoStartDiscovery => startDiscovery Platform_isWindows
  | DoTimeout => timeout Platform_isWindows
  | DoReadyRead socket => readyRead_emit MACHINE_NAME socket
  | DoGlobalContainerStackChanged machine_name =>
      _onGlobalContainerStackChanged MACHINE_NAME machine_name
  | EnvInterfaces interfaces => modify (set_interfaces interfaces)
  | EnvDatagram socket datagram =>
      update_socket socket (λ s,
        {| localAddress := localAddress s; localPort := localPort s;
           pendingDatagrams := pendingDatagrams s ++ [datagram];
           readyRead := readyRead s |})
  end.

Definition exec (MACHINE_NAME : str) (Platform_isWindows : bool)
    (st : State) (a : Action) : State :=
  (run MACHINE_NAME Platform_isWindows a st).2.

Inductive reachable (MACHINE_NAME : str) (Platform_isWindows : bool)
  : State → Prop :=
| reachable_init interfaces :
    reachable MACHINE_NAME Platform_isWindows (__init__ interfaces)
| reachable_step st a :
    reachable MACHINE_NAME Platform_isWindows st →
    reachable MACHINE_NAME Platform_isWindows
      (exec MACHINE_NAME Platform_isWindows st a)
| reachable_host st devices :
    reachable MACHINE_NAME Platform_isWindows st →
    reachable MACHINE_NAME Platform_isWindows (set_output_devices devices st)
| reachable_system st ok :
    reachable MACHINE_NAME Platform_isWindows st →
    reachable MACHINE_NAME Platform_isWindows (set_bind_succeeds ok st).

(** ** Vocabulary of the properties *)

(** Number of occurrences of a character. *)
Definition count (c : N) (s : str) : nat := length (filter (λ x, x = c) s).

(** The address entries that [__prepare] keeps, in enumeration order. *)
Definition qualifies (address_entry : QNetworkAddressEntry) : Prop :=
  isLoopback (ip address_entry) = false
  ∧ protocol (ip address_entry) = IPv4Protocol.

#[global] Instance qualifies_dec e : Decision (qualifies e).
Proof. unfold qualifies. apply _. Defined.

Definition qualifying_entries (interfaces : list QNetworkInterface)
  : list QNetworkAddressEntry :=
  filter qualifies (interfaces ≫= addressEntries).

Definition is_tuple (obj : pyobj) : Prop :=
  match obj with PyTuple _ _ => True | PySocket _ => False end.

(** The probe that a round writes for one channel. *)
Definition probe (obj : pyobj) : option Event :=
  match obj with
  | PyTuple socket address_entry =>
      Some (WriteDatagram socket (b "discover") (broadcast address_entry) 20054)
  | PySocket _ => None
  end.

Definition is_write (ev : Event) : Prop :=
  match ev with WriteDatagram _ _ _ _ => True | _ => False end.

#[global] Instance is_write_dec ev : Decision (is_write ev).
Proof. destruct ev; simpl; apply _. Defined.

(** The device record that [register] builds from an advertisement. *)
Definition device_of (adv : Advertisement) : SnapmakerJ1OutputDevice :=
  {| getId := device_id adv; dev_address := address adv;
     dev_properties := properties adv |}.

(** The message [n@a|k1:v1|...|kn:vn]. *)
Fixpoint segments (kvs : list (list N * list N)) : str :=
  match kvs with
  | [] => []
  | kv :: kvs' => chr "|" :: (kv.1 ++ chr ":" :: kv.2) ++ segments kvs'
  end.

Definition message (n a : str) (kvs : list (list N * list N)) : str :=
  (n ++ chr "@" :: a) ++ segments kvs.

(** The dictionary that the assignments [properties[k] = v] build, in the
    order of the list. *)
Definition dict_of (kvs : list (list N * list N)) : gmap (list N) (list N) :=
  foldl (λ m kv, <[kv.1 := kv.2]> m) ∅ kvs.

(** The state once [receiveDatagram] has taken the first pending datagram. *)
Definition received (socket : nat) (rest : list QNetworkDatagram) (st : State)
  : State := (set_pending socket rest st).2.

(** The port that [__prepare] passes to [bind] for the [i]-th address entry
    it keeps, [port] being the port the loop started with. *)
Definition requested_port (Platform_isWindows : bool) (port : N) (i : nat)
  : option N :=
  if Platform_isWindows then Some (port + N.of_nat i) else None.

(** The socket that [__prepare] leaves on the heap for that entry: bound to
    the address of the entry when [bind] succeeded, not bound otherwise. *)
Definition prepared_socket (ok : nat → QHostAddress → option N → bool)
    (Platform_isWindows : bool) (base cell : nat) (port : N)
    (i : nat) (address_entry : QNetworkAddressEntry) : QUdpSocket :=
  if ok (base + i)%nat (ip address_entry)
        (requested_port Platform_isWindows port i) then
    {| localAddress := Some (ip address_entry);
       localPort := requested_port Platform_isWindows port i;
       pendingDatagrams := [];
       readyRead := Some cell |}
  else
    {| localAddress := None; localPort := None; pendingDatagrams := [];
       readyRead := Some cell |}.

(** The calls that [__prepare] makes for that entry; [base] is the number of
    sockets that existed before. *)
Definition prepare_events (Platform_isWindows : bool) (base : nat) (port : N)
    (i : nat) (address_entry : QNetworkAddressEntry) : list Event :=
  [LoggerInfo "Discovering printers on network interface: %s"
              [toString (ip address_entry)];
   Bind (base + i) (ip address_entry)
        (if Platform_isWindows then Some (port + N.of_nat i) else None)].

Definition next_port (Platform_isWindows : bool) (port : N) (n : nat) : N :=
  if Platform_isWindows then port + N.of_nat n else port.

(** [st'] is [st] with one channel more for each entry of [es]. *)
Record channels_added (Platform_isWindows : bool) (cell : nat) (port : N)
    (es : list QNetworkAddressEntry) (st st' : State) : Prop := {
  added_sockets :
    discover_sockets st'
    = discover_sockets st ++ imap (λ i e, PyTuple (length (heap st) + i) e) es;
  added_heap :
    heap st'
    = heap st
      ++ imap (prepared_socket (bind_succeeds st) Platform_isWindows
                 (length (heap st)) cell port) es;
  added_trace :
    trace st'
    = trace st
      ++ mjoin (imap (prepare_events Platform_isWindows (length (heap st)) port) es);
  added_timer : timer_active st' = timer_active st;
  added_devices : output_devices st' = output_devices st;
  added_interfaces : interfaces st' = interfaces st;
  added_bind_succeeds : bind_succeeds st' = bind_succeeds st;
}.

(** A channel of the plugin: a tuple of a kept address entry and a socket
    that is bound to the address of that entry when [bind] succeeded, and not
    bound at all when it failed. *)
Definition channel_ok (st : State) (obj : pyobj) : Prop :=
  match obj with
  | PyTuple socket address_entry =>
      qualifies address_entry
      ∧ (localAddress <$> heap st !! socket = Some (Some (ip address_entry))
         ∨ localAddress <$> heap st !! socket = Some None)
  | PySocket _ => False
  end.

Definition channels_ok (st : State) : Prop :=
  Forall (channel_ok st) (discover_sockets st).

(** [st'] has the channels of [st], bound as in [st]. *)
Definition same_channels (st st' : State) : Prop :=
  discover_sockets st' = discover_sockets st
  ∧ ∀ socket, localAddress <$> heap st' !! socket
              = localAddress <$> heap st !! socket.


(** ** Example hosts *)

Definition ipv4 (text : string) : QHostAddress :=
  {| isNull := false; isLoopback := false; protocol := IPv4Protocol;
     toString := u text |}.

Definition localhost : QNetworkAddressEntry :=
  {| ip := {| isNull := false; isLoopback := true; protocol := IPv4Protocol;
              toString := u "127.0.0.1" |};
     broadcast := {| isNull := true; isLoopback := false;
                     protocol := UnknownNetworkLayerProtocol;
                     toString := [] |} |}.

Definition link_local6 : QNetworkAddressEntry :=
  {| ip := {| isNull := false; isLoopback := false; protocol := IPv6Protocol;
              toString := u "fe80::1c2a:3bff:fe4d:5e6f" |};
     broadcast := {| isNull := true; isLoopback := false;
                     protocol := UnknownNetworkLayerProtocol;
                     toString := [] |} |}.

Definition lan : QNetworkAddressEntry :=
  {| ip := ipv4 "192.168.1.10"; broadcast := ipv4 "192.168.1.255" |}.

Definition office : QNetworkAddressEntry :=
  {| ip := ipv4 "10.0.0.5"; broadcast := ipv4 "10.0.0.255" |}.

(** A host with a loopback interface and one network card. *)
Definition home_host : list QNetworkInterface :=
  [ {| addressEntries := [localhost] |};
    {| addressEntries := [lan; link_local6] |} ].

(** The same host after it has moved to another network. *)
Definition office_host : list QNetworkInterface :=
  [ {| addressEntries := [localhost] |};
    {| addressEntries := [office; link_local6] |} ].


(** The plugin on [home_host] after [start()] and the first tick of the
    timer. *)
Definition discovering (MACHINE_NAME : str) (Platform_isWindows : bool) : State :=
  exec MACHINE_NAME Platform_isWindows
    (exec MACHINE_NAME Platform_isWindows (__init__ home_host) DoStart)
    DoTimeout.

(** [sep.join(parts)] for a separator of one character. *)
Fixpoint join (sep : N) (parts : list str) : str :=
  match parts with
  | [] => []
  | p :: ps =>
      match ps with
      | [] => p
      | _ :: _ => p ++ sep :: join sep ps
      end
  end.

(** The segments of a message: the first one and the others. *)
Definition header (msg : str) : str := hd [] (split (chr "|") msg).
Definition property_segments (msg : str) : list str := tail (split (chr "|") msg).

(** ** Relations between the state before and after a call *)

(** [m] takes every state to a state related to it by [R], whether it
    returns or raises. *)
Definition preserves {A} (R : relation State) (m : M A) : Prop :=
  ∀ st, R st (m st).2.

(** The component [f] of the state is left as it is. *)
Definition keeps {B} (f : State → B) : relation State :=
  λ st st', f st' = f st.

(** Every record of the registry is still there, unchanged. *)
Definition registry_grows : relation State :=
  λ st st', output_devices st ⊆ output_devices st'.

(** The calls made since are all of the kind [P]. *)
Definition appends (P : Event → Prop) : relation State :=
  λ st st', ∃ evs, trace st' = trace st ++ evs ∧ Forall P evs.

Definition is_abort (ev : Event) : Prop :=
  match ev with Abort _ => True | _ => False end.

(** Whether a datagram makes [__parseMessage] raise: it passes the checks
    of [_readSocket], decodes, and its message does not unpack. *)
Definition raises_in_parse (datagram : QNetworkDatagram) : bool :=
  isValid datagram && negb (isNull (senderAddress datagram))
  && match utf8_decode (data datagram) with
     | Some msg =>
         match parse_fields msg with Raise _ => true | Ok _ => false end
     | None => false
     end.

(** A record of the registry as [__parseMessage] makes them. *)
Definition record_ok (MACHINE_NAME : str) (key : str)
    (device : SnapmakerJ1OutputDevice) : Prop :=
  getId device = key
  ∧ dev_properties device !! u "model" = Some MACHINE_NAME
  ∧ ∃ name, key = name ++ chr "@" :: dev_address device
            ∧ (chr "@" ∉ name) ∧ (chr "@" ∉ dev_address device).

(** Every record of the registry after the call was there before, or is
    the record of an accepted advertisement. *)
Definition adds_accepted (MACHINE_NAME : str) : relation State :=
  λ st st', ∀ key device,
    output_devices st' !! key = Some device →
    output_devices st !! key = Some device
    ∨ record_ok MACHINE_NAME key device.

(** The datagrams behind the first one that makes the parse raise. *)
Fixpoint after_first_raise (pending : list QNetworkDatagram)
  : list QNetworkDatagram :=
  match pending with
  | [] => []
  | datagram :: rest =>
      if raises_in_parse datagram then rest else after_first_raise rest
  end.

(** A run of the plugin: the state after a sequence of actions. *)
Definition exec_all (MACHINE_NAME : str) (Platform_isWindows : bool)
    (st : State) (actions : list Action) : State :=
  foldl (exec MACHINE_NAME Platform_isWindows) st actions.

(** Unfolding of the monad operations. *)
Ltac unfold_M :=
  unfold mbind, M_bind, mret, M_ret, gets, modify, lift, raise, emit,
    update_socket.

Ltac unfold_M_in H :=
  unfold mbind, M_bind, mret, M_ret, gets, modify, lift, raise, emit,
    update_socket in H.

(** ** Facts about [split] *)

Lemma split_not_nil sep s : split sep s ≠ [].
Proof.
  destruct s as [|c s]; simpl; [done|].
  case_decide; [done|]. by destruct (split sep s).
Qed.

Lemma split_no_sep sep s : sep ∉ s → split sep s = [s].
Proof.
  induction s as [|c s IH]; intros Hs; simpl; [done|].
  apply not_elem_of_cons in Hs as [Hc Hs].
  rewrite decide_False by done. by rewrite IH.
Qed.

Lemma split_app_sep sep s t :
  sep ∉ s → split sep (s ++ sep :: t) = s :: split sep t.
Proof.
  induction s as [|c s IH]; intros Hs; simpl.
  - by rewrite decide_True.
  - apply not_elem_of_cons in Hs as [Hc Hs].
    rewrite decide_False by done. by rewrite IH.
Qed.

Lemma length_split sep s : length (split sep s) = S (count sep s).
Proof.
  unfold count. induction s as [|c s IH]; simpl; [done|].
  rewrite filter_cons. destruct (decide (c = sep)) as [Hc|Hc]; simpl.
  - by rewrite IH.
  - destruct (split sep s) eqn:E; simpl in *; [lia|done].
Qed.

Lemma count_pos_elem_of c s : (0 < count c s)%nat → c ∈ s.
Proof.
  unfold count. intros H.
  destruct (filter (λ x, x = c) s) as [|x l] eqn:E; simpl in H; [lia|].
  assert (x ∈ filter (λ x, x = c) s) as Hx by (rewrite E; left).
  apply list_elem_of_filter in Hx as [-> ?]. done.
Qed.

(** ** Facts about [utf8_decode] *)

Lemma utf8_decode_ascii (bs : list byte) :
  Forall (λ x, Byte.to_N x < 128) bs →
  utf8_decode bs = Some (Byte.to_N <$> bs).
Proof.
  induction 1 as [|x bs Hx _ IH]; [done|].
  cbn [utf8_decode]. cbv zeta.
  apply N.ltb_lt in Hx. rewrite Hx, IH. done.
Qed.

Lemma utf8_decode_examples :
  utf8_decode [xe2; x82; xac] = Some [8364]
  ∧ utf8_decode [xf0; x9f; x96; xa8] = Some [128424]
  ∧ utf8_decode [x4a; xc3; xa9] = Some [74; 233]
  ∧ utf8_decode [xff] = None
  ∧ utf8_decode [x80] = None
  ∧ utf8_decode [xc0; x80] = None
  ∧ utf8_decode [xe2; x82] = None
  ∧ utf8_decode [xed; xa0; x80] = None
  ∧ utf8_decode [xf4; x90; x80; x80] = None.
Proof. vm_compute. repeat split; done. Qed.

(** ** Facts about the parse *)

(** A message whose first segment has two or more ["@"] is not unpacked. *)
Lemma parse_fields_many_at msg part0 parts :
  split (chr "|") msg = part0 :: parts →
  (2 ≤ count (chr "@") part0)%nat →
  parse_fields msg = Raise ValueError.
Proof.
  intros Hsplit Hcount. unfold parse_fields. rewrite Hsplit.
  rewrite decide_True by (apply count_pos_elem_of; lia).
  pose proof (length_split (chr "@") part0) as Hlen.
  destruct (split (chr "@") part0) as [|x [|y [|z l]]];
    cbn [length] in Hlen; try done; lia.
Qed.

(** A property segment with two or more [":"] is not unpacked either,
    whatever comes before it among the property segments. *)
Lemma parse_properties_many_colons front part back props :
  (2 ≤ count (chr ":") part)%nat →
  parse_properties (front ++ part :: back) props = Raise ValueError.
Proof.
  intros Hcount. revert props.
  induction front as [|p front IH]; intros props; simpl.
  - rewrite decide_True by (apply count_pos_elem_of; lia).
    pose proof (length_split (chr ":") part) as Hlen.
    destruct (split (chr ":") part) as [|x [|y [|z l]]];
      cbn [length] in Hlen; try done; lia.
  - case_decide; [|apply IH].
    destruct (split (chr ":") p) as [|x [|y [|z l]]]; first [done | apply IH].
Qed.

(** Well-formed [key:value] segments are inserted one after the other. *)
Lemma parse_properties_pairs (kvs : list (list N * list N)) props :
  Forall (λ kv, (chr ":" ∉ fst kv) ∧ (chr ":" ∉ snd kv)) kvs →
  parse_properties ((λ kv, kv.1 ++ chr ":" :: kv.2) <$> kvs) props
  = Ok (foldl (λ m kv, <[kv.1 := kv.2]> m) props kvs).
Proof.
  intros Hkvs. revert props.
  induction Hkvs as [|[k v] kvs [Hk Hv] _ IH]; intros props; simpl in *; [done|].
  rewrite decide_True by (apply elem_of_app; right; left).
  rewrite split_app_sep by done. rewrite split_no_sep by done. apply IH.
Qed.

Lemma split_segments (kvs : list (list N * list N)) (head : list N) :
  chr "|" ∉ head →
  Forall (λ kv, (chr "|" ∉ fst kv) ∧ (chr "|" ∉ snd kv)) kvs →
  split (chr "|") (head ++ segments kvs)
  = head :: ((λ kv, kv.1 ++ chr ":" :: kv.2) <$> kvs).
Proof.
  intros Hhead Hkvs. revert head Hhead.
  induction Hkvs as [|[k v] kvs [Hk Hv] _ IH]; intros head Hhead; simpl in *.
  - rewrite app_nil_r. by apply split_no_sep.
  - rewrite split_app_sep by done. f_equal. apply IH.
    rewrite elem_of_app, elem_of_cons. intros [?|[?|?]]; done.
Qed.

(** What [parse_fields] computes on [n@a|k1:v1|...|kn:vn]. *)
Lemma parse_fields_message n a (kvs : list (list N * list N)) :
  chr "@" ∉ n → chr "|" ∉ n → chr "@" ∉ a → chr "|" ∉ a →
  Forall (λ kv, ((chr ":" ∉ fst kv) ∧ (chr ":" ∉ snd kv))
                ∧ (chr "|" ∉ fst kv) ∧ (chr "|" ∉ snd kv)) kvs →
  parse_fields (message n a kvs)
  = Ok (Some {| device_id := n ++ chr "@" :: a; name := n; address := a;
                properties := dict_of kvs |}).
Proof.
  intros Hn1 Hn2 Ha1 Ha2 Hkvs. apply Forall_and in Hkvs as [Hc Hp].
  unfold parse_fields, message.
  rewrite split_segments; [|by rewrite elem_of_app, elem_of_cons; intros [?|[?|?]]|done].
  rewrite decide_True by (apply elem_of_app; right; left).
  rewrite split_app_sep by done. rewrite split_no_sep by done.
  by rewrite parse_properties_pairs.
Qed.

(** ** The message codec *)

(** Any message with a good header and a property segment with two or more
    [":"] stops the parse. *)
Lemma parse_fields_many_colons msg part0 front part back :
  split (chr "|") msg = part0 :: front ++ part :: back →
  count (chr "@") part0 = 1%nat →
  (2 ≤ count (chr ":") part)%nat →
  parse_fields msg = Raise ValueError.
Proof.
  intros Hsplit Hat Hcolons. unfold parse_fields. rewrite Hsplit.
  rewrite decide_True by (apply count_pos_elem_of; lia).
  pose proof (length_split (chr "@") part0) as Hlen. rewrite Hat in Hlen.
  destruct (split (chr "@") part0) as [|x [|y [|z l]]];
    cbn [length] in Hlen; try done.
  by rewrite parse_properties_many_colons.
Qed.

(** C3, on the code: a property segment with a second [":"] is not split on
    the first [":"] only.  [part.split(":")] yields three pieces, the
    unpacking into [key, value] raises [ValueError], and nothing is inserted:
    the message stops the parse, and the exception leaves [__parseMessage]. *)
Theorem parse_value_with_colon_raises :
  split (chr ":") (u "time:12:30") = [u "time"; u "12"; u "30"]
  ∧ parse_properties [u "model:J1"; u "time:12:30"] ∅ = Raise ValueError
  ∧ parse_fields (u "X@1.2.3.4|model:J1|time:12:30") = Raise ValueError
  ∧ ∀ MACHINE_NAME ip st,
      __parseMessage MACHINE_NAME ip (u "X@1.2.3.4|model:J1|time:12:30") st
      = (Raise ValueError, st).
Proof.
  split; [by vm_compute|]. split; [by vm_compute|].
  assert (parse_fields (u "X@1.2.3.4|model:J1|time:12:30") = Raise ValueError)
    as Hparse by (by vm_compute).
  split; [done|]. intros MACHINE_NAME ip st.
  unfold __parseMessage, mbind, M_bind, lift. by rewrite Hparse.
Qed.

(** C4: on a well-formed message [n@a|k1:v1|k2:v2] the parse yields the
    whole first segment as device id, [n] as name, [a] as address and the
    dictionary [{k1: v1, k2: v2}] as properties. *)
Theorem parse_well_formed (n a k1 v1 k2 v2 : list N) :
  chr "@" ∉ n → chr "|" ∉ n → chr "@" ∉ a → chr "|" ∉ a →
  chr ":" ∉ k1 → chr "|" ∉ k1 → chr ":" ∉ v1 → chr "|" ∉ v1 →
  chr ":" ∉ k2 → chr "|" ∉ k2 → chr ":" ∉ v2 → chr "|" ∉ v2 →
  parse_fields (n ++ chr "@" :: a ++ chr "|" :: k1 ++ chr ":" :: v1
                  ++ chr "|" :: k2 ++ chr ":" :: v2)
  = Ok (Some {| device_id := n ++ chr "@" :: a; name := n; address := a;
                properties := <[k2 := v2]> (<[k1 := v1]> ∅) |}).
Proof.
  intros.
  replace (n ++ chr "@" :: a ++ chr "|" :: k1 ++ chr ":" :: v1
             ++ chr "|" :: k2 ++ chr ":" :: v2)
    with (message n a [(k1, v1); (k2, v2)]).
  - rewrite parse_fields_message by (done || by repeat constructor). done.
  - unfold message. simpl. by rewrite <- !(assoc_L (++)), app_nil_r.
Qed.

Lemma parse_well_formed_witness :
  parse_fields (u "Snapmaker J1@172.18.0.2|model:J1|status:IDLE")
  = Ok (Some {| device_id := u "Snapmaker J1@172.18.0.2";
                name := u "Snapmaker J1"; address := u "172.18.0.2";
                properties := <[u "status" := u "IDLE"]>
                                (<[u "model" := u "J1"]> ∅) |}).
Proof.
  apply (parse_well_formed (u "Snapmaker J1") (u "172.18.0.2")
           (u "model") (u "J1") (u "status") (u "IDLE"));
    apply (bool_decide_unpack _); vm_compute; exact I.
Defined.

(** ** Filtering and registration *)

(** C7: a parsed advertisement whose ["model"] is missing or differs from
    [MACHINE_NAME] is dropped: [__parseMessage] returns normally and leaves
    the state as it was, so the registry is neither read nor written (the
    trace has no new [GetOutputDevice] or [AddOutputDevice]). *)
Theorem mismatch_not_forwarded MACHINE_NAME ip msg adv st :
  parse_fields msg = Ok (Some adv) →
  properties adv !! u "model" ≠ Some MACHINE_NAME →
  __parseMessage MACHINE_NAME ip msg st = (Ok (), st).
Proof.
  intros Hparse Hmodel. unfold __parseMessage. unfold_M.
  rewrite Hparse. by rewrite decide_True.
Qed.

Lemma mismatch_not_forwarded_witness :
  let st := discovering (u "Snapmaker J1") false in
  __parseMessage (u "Snapmaker J1") (u "172.18.0.9")
    (u "Other@172.18.0.9|model:A350|status:IDLE") st = (Ok (), st).
Proof.
  intros st. eapply mismatch_not_forwarded.
  - vm_compute. reflexivity.
  - vm_compute. discriminate.
Defined.

(** What [register] does to a state, according to the registry. *)
Lemma register_known adv d st :
  output_devices st !! device_id adv = Some d →
  register adv st
  = (Ok (), set_trace (trace st ++ [GetOutputDevice (device_id adv)]) st).
Proof.
  intros Hd. unfold register, getOutputDevice. unfold_M. simpl. by rewrite Hd.
Qed.

Lemma register_unknown adv st :
  output_devices st !! device_id adv = None →
  register adv st
  = (Ok (),
     set_output_devices (<[device_id adv := device_of adv]> (output_devices st))
       (set_trace (trace st ++ [GetOutputDevice (device_id adv);
                                LoggerInfo "Discovered Snapmaker J1: %s@%s"
                                           [name adv; address adv];
                                AddOutputDevice (device_of adv)]) st)).
Proof.
  intros Hd. unfold register, getOutputDevice, addOutputDevice. unfold_M.
  simpl. rewrite Hd. simpl. unfold set_output_devices, set_trace. simpl.
  by rewrite <- !(assoc_L (++)).
Qed.

(** C6: registration is first-seen-wins.  Registering an advertisement whose
    device id is already in the registry changes no record; hence after two
    registrations with the same device id (address and properties of the
    second may differ) the registry holds one record for that id, the one the
    first registration left there, and an id that was new has added exactly
    one record. *)
Theorem register_first_seen_wins adv1 adv2 st :
  device_id adv1 = device_id adv2 →
  let st1 := (register adv1 st).2 in
  let st2 := (register adv2 st1).2 in
  (register adv1 st).1 = Ok () ∧ (register adv2 st1).1 = Ok ()
  ∧ output_devices st2 = output_devices st1
  ∧ output_devices st2 !! device_id adv1
    = Some (default (device_of adv1) (output_devices st !! device_id adv1))
  ∧ (output_devices st !! device_id adv1 = None →
     output_devices st2 = <[device_id adv1 := device_of adv1]> (output_devices st)
     ∧ size (output_devices st2) = S (size (output_devices st)))
  ∧ (∀ d, output_devices st !! device_id adv1 = Some d →
     output_devices st2 = output_devices st).
Proof.
  intros Hid st1 st2. subst st2 st1.
  destruct (output_devices st !! device_id adv1) as [d|] eqn:Hd.
  - rewrite (register_known adv1 d st Hd). simpl.
    rewrite (register_known adv2 d) by (simpl; by rewrite <- Hid).
    simpl. rewrite Hd. repeat split; try done.
  - rewrite (register_unknown adv1 st Hd). simpl.
    rewrite (register_known adv2 (device_of adv1))
      by (simpl; rewrite <- Hid; apply lookup_insert_eq).
    simpl. rewrite lookup_insert_eq. repeat split; try done.
    by apply map_size_insert_None.
Qed.

Lemma register_first_seen_wins_witness :
  let adv1 := {| device_id := u "J1@172.18.0.2"; name := u "J1";
                 address := u "172.18.0.2";
                 properties := {[ u "model" := u "J1" ]} |} in
  let adv2 := {| device_id := u "J1@172.18.0.2"; name := u "J1";
                 address := u "10.0.0.7";
                 properties := {[ u "model" := u "J1"; u "status" := u "RUNNING" ]} |} in
  let st2 := (register adv2 (register adv1 (__init__ [])).2).2 in
  output_devices st2 = {[ u "J1@172.18.0.2" := device_of adv1 ]}.
Proof.
  intros adv1 adv2 st2.
  pose proof (register_first_seen_wins adv1 adv2 (__init__ []) eq_refl)
    as (_ & _ & _ & _ & Hnew & _).
  destruct (Hnew eq_refl) as [Heq _]. exact Heq.
Defined.

Lemma parseMessage_accepted MACHINE_NAME ip msg adv st :
  parse_fields msg = Ok (Some adv) →
  properties adv !! u "model" = Some MACHINE_NAME →
  __parseMessage MACHINE_NAME ip msg st = register adv st.
Proof.
  intros Hparse Hmodel. unfold __parseMessage. unfold_M.
  rewrite Hparse. by rewrite decide_False by (by intros []).
Qed.

(** ** Draining a socket *)

Lemma received_frame socket rest st :
  output_devices (received socket rest st) = output_devices st
  ∧ trace (received socket rest st) = trace st
  ∧ discover_sockets (received socket rest st) = discover_sockets st
  ∧ timer_active (received socket rest st) = timer_active st.
Proof. done. Qed.

(** An undecodable datagram is taken off the socket and the loop goes on. *)
Lemma drain_undecodable MACHINE_NAME socket datagram rest st :
  utf8_decode (data datagram) = None →
  drain MACHINE_NAME socket (datagram :: rest) st
  = drain MACHINE_NAME socket rest (received socket rest st).
Proof.
  intros Hbytes. simpl. unfold received, set_pending, try_except_pass, decode.
  unfold_M. simpl. rewrite Hbytes.
  by destruct (isValid datagram && negb (isNull (senderAddress datagram))).
Qed.

(** C8: a datagram whose bytes are not valid UTF-8 makes [decode] raise
    [UnicodeDecodeError], which [_readSocket] swallows: the datagram is taken
    off the socket and the loop goes on with the next one as if nothing had
    been received, so no advertisement is parsed, the registry and the trace
    stay as they are, and the exception does not leave the loop. *)
Theorem invalid_utf8_swallowed MACHINE_NAME socket datagram rest st :
  utf8_decode (data datagram) = None →
  decode (data datagram) = Raise UnicodeDecodeError
  ∧ drain MACHINE_NAME socket (datagram :: rest) st
    = drain MACHINE_NAME socket rest (received socket rest st)
  ∧ drain MACHINE_NAME socket [datagram] st
    = (Ok (), received socket [] st)
  ∧ output_devices (received socket rest st) = output_devices st
  ∧ trace (received socket rest st) = trace st.
Proof.
  intros Hbytes.
  assert (decode (data datagram) = Raise UnicodeDecodeError) as Hdecode
    by (unfold decode; by rewrite Hbytes).
  split; [done|]. split; [by apply drain_undecodable|].
  split; [by rewrite drain_undecodable|done].
Qed.

Lemma invalid_utf8_swallowed_witness :
  let datagram := {| isValid := true;
                     senderAddress := {| isNull := false; isLoopback := false;
                                         protocol := IPv4Protocol;
                                         toString := u "172.18.0.2" |};
                     data := [xff; xfe; x4a; x31] |} in
  let st := exec (u "Snapmaker J1") false (discovering (u "Snapmaker J1") false)
              (EnvDatagram 0 datagram) in
  pending_of 0 st = [datagram]
  ∧ drain (u "Snapmaker J1") 0 [datagram] st = (Ok (), received 0 [] st)
  ∧ output_devices (received 0 [] st) = ∅.
Proof.
  intros datagram st.
  destruct (invalid_utf8_swallowed (u "Snapmaker J1") 0%nat datagram [] st)
    as (_ & _ & Hone & Hreg & _); [vm_compute; reflexivity|].
  split; [vm_compute; reflexivity|]. split; [exact Hone|].
  rewrite Hreg. vm_compute. reflexivity.
Defined.

(** A queue that holds nothing but undecodable datagrams is drained to the
    end without touching the registry. *)
Lemma drain_all_invalid MACHINE_NAME socket pending st :
  Forall (λ datagram, utf8_decode (data datagram) = None) pending →
  ∃ st', drain MACHINE_NAME socket pending st = (Ok (), st')
         ∧ output_devices st' = output_devices st ∧ trace st' = trace st
         ∧ (pending ≠ [] → pending_of socket st' = []).
Proof.
  intros Hall. revert st.
  induction Hall as [|datagram rest Hd _ IH]; intros st.
  - by exists st.
  - rewrite drain_undecodable by done.
    destruct rest as [|d' rest'].
    + exists (received socket [] st). repeat split; try done.
      intros _. unfold pending_of, received, set_pending. unfold_M. simpl.
      rewrite list_lookup_alter, decide_True by done.
      by destruct (heap st !! socket).
    + destruct (IH (received socket (d' :: rest') st))
        as (st' & -> & Hreg & Htr & Hlast).
      exists st'. repeat split; try done. intros _. by apply Hlast.
Qed.

Lemma readSocket_all_invalid MACHINE_NAME socket st :
  Forall (λ datagram, utf8_decode (data datagram) = None) (pending_of socket st) →
  ∃ st', _readSocket MACHINE_NAME socket st = (Ok (), st')
         ∧ output_devices st' = output_devices st ∧ trace st' = trace st
         ∧ pending_of socket st' = [].
Proof.
  intros Hall. unfold _readSocket. unfold_M.
  destruct (drain_all_invalid MACHINE_NAME socket _ st Hall)
    as (st' & Hrun & Hreg & Htr & Hlast).
  exists st'. repeat split; try done.
  destruct (pending_of socket st) eqn:E; [|by apply Hlast].
  simpl in Hrun. unfold_M_in Hrun. injection Hrun as <-. done.
Qed.

(** C10: a message whose first segment has two or more ["@"] makes
    [__parseMessage] raise [ValueError] at the unpacking of
    [device_id.split("@")]; it is neither reported as an invalid message nor
    dropped.  [_readSocket] catches [UnicodeDecodeError] only, so the
    exception leaves the drain loop, the datagrams behind it still
    pending. *)
Theorem many_at_signs_raise MACHINE_NAME socket datagram rest msg part0 parts st :
  isValid datagram = true →
  isNull (senderAddress datagram) = false →
  utf8_decode (data datagram) = Some msg →
  split (chr "|") msg = part0 :: parts →
  (2 ≤ count (chr "@") part0)%nat →
  parse_fields msg = Raise ValueError
  ∧ (∀ ip st, __parseMessage MACHINE_NAME ip msg st = (Raise ValueError, st))
  ∧ drain MACHINE_NAME socket (datagram :: rest) st
    = (Raise ValueError, received socket rest st).
Proof.
  intros Hvalid Hsender Hbytes Hsplit Hcount.
  pose proof (parse_fields_many_at msg part0 parts Hsplit Hcount) as Hparse.
  assert (∀ ip st, __parseMessage MACHINE_NAME ip msg st = (Raise ValueError, st))
    as Hraise.
  { intros ip st'. unfold __parseMessage. unfold_M. by rewrite Hparse. }
  repeat split; [done|done|].
  simpl. unfold received, set_pending, try_except_pass, decode. unfold_M.
  simpl. rewrite Hvalid, Hsender, Hbytes. simpl.
  unfold mbind, M_bind in Hraise. by rewrite Hraise.
Qed.

Lemma many_at_signs_raise_witness :
  let sender := {| isNull := false; isLoopback := false;
                   protocol := IPv4Protocol; toString := u "172.18.0.2" |} in
  let datagram := {| isValid := true; senderAddress := sender;
                     data := b "J1@lab@172.18.0.2|model:J1" |} in
  let next := {| isValid := true; senderAddress := sender;
                 data := b "J1@172.18.0.3|model:J1" |} in
  let st := exec (u "Snapmaker J1") false
              (exec (u "Snapmaker J1") false (discovering (u "Snapmaker J1") false)
                 (EnvDatagram 0 datagram))
              (EnvDatagram 0 next) in
  drain (u "Snapmaker J1") 0 [datagram; next] st
  = (Raise ValueError, received 0 [next] st).
Proof.
  intros sender datagram next st.
  apply (many_at_signs_raise (u "Snapmaker J1") 0%nat datagram [next]
           (u "J1@lab@172.18.0.2|model:J1") (u "J1@lab@172.18.0.2")
           [u "model:J1"] st).
  - reflexivity.
  - reflexivity.
  - vm_compute. reflexivity.
  - vm_compute. reflexivity.
  - vm_compute. lia.
Defined.

(** ** Building the channels *)

Lemma alter_snoc {A} (f : A → A) (l : list A) (x : A) :
  alter f (length l) (l ++ [x]) = l ++ [f x].
Proof. by rewrite alter_app_r_alt, Nat.sub_diag by done. Qed.

Lemma channels_added_nil w cell port st : channels_added w cell port [] st st.
Proof. split; simpl; by rewrite ?app_nil_r. Qed.

Lemma channels_added_app w cell port es1 es2 st st' st'' :
  channels_added w cell port es1 st st' →
  channels_added w cell (next_port w port (length es1)) es2 st' st'' →
  channels_added w cell port (es1 ++ es2) st st''.
Proof.
  intros [Hs1 Hh1 Ht1 Ha1 Hd1 Hi1 Hb1] [Hs2 Hh2 Ht2 Ha2 Hd2 Hi2 Hb2].
  assert (length (heap st') = (length (heap st) + length es1)%nat) as Hlen
    by (by rewrite Hh1, length_app, length_imap).
  split.
  - rewrite Hs2, Hs1, imap_app, <- (assoc_L (++)). do 2 f_equal.
    apply imap_ext. intros i e _. simpl. f_equal. lia.
  - rewrite Hh2, Hlen, Hh1, Hb1, imap_app, <- (assoc_L (++)). do 2 f_equal.
    apply imap_ext. intros i e _.
    unfold prepared_socket, requested_port, next_port.
    destruct w; by rewrite ?Nat2N.inj_add, ?N.add_assoc, ?Nat.add_assoc.
  - rewrite Ht2, Ht1, imap_app, join_app, <- (assoc_L (++)). do 3 f_equal.
    apply imap_ext. intros i e _. unfold prepare_events, next_port.
    rewrite Hlen.
    destruct w; by rewrite ?Nat2N.inj_add, ?N.add_assoc, ?Nat.add_assoc.
  - congruence.
  - congruence.
  - congruence.
  - congruence.
Qed.

Lemma prepare_entry_skip w cell port e st :
  ¬ qualifies e → prepare_entry w cell port e st = (Ok port, st).
Proof.
  unfold qualifies, prepare_entry. intros Hq.
  destruct (isLoopback (ip e)); [done|].
  case_decide; [done|]. destruct Hq. split; [done|].
  by destruct (decide (protocol (ip e) = IPv4Protocol)).
Qed.

Lemma prepare_entry_keep w cell port e st :
  qualifies e →
  ∃ st', prepare_entry w cell port e st = (Ok (next_port w port 1), st')
         ∧ channels_added w cell port [e] st st'.
Proof.
  unfold qualifies, prepare_entry. intros [Hl Hp]. rewrite Hl.
  rewrite decide_False by (by intros []).
  unfold QUdpSocket_new, bind, readyRead_connect. unfold_M.
  destruct w; simpl.
  - destruct (bind_succeeds st (length (heap st)) (ip e) (Some port)) eqn:Hok; simpl;
      eexists; (split; [reflexivity|]); split;
      unfold prepared_socket, requested_port; simpl;
      rewrite ?alter_snoc, ?Nat.add_0_r, ?N.add_0_r, ?Hok, <- ?(assoc_L (++));
      done.
  - destruct (bind_succeeds st (length (heap st)) (ip e) None) eqn:Hok; simpl;
      eexists; (split; [reflexivity|]); split;
      unfold prepared_socket, requested_port; simpl;
      rewrite ?alter_snoc, ?Nat.add_0_r, ?N.add_0_r, ?Hok, <- ?(assoc_L (++));
      done.
Qed.

Lemma prepare_entries w cell (es : list QNetworkAddressEntry) port st :
  ∃ st', for_fold es (prepare_entry w cell) port st
         = (Ok (next_port w port (length (filter qualifies es))), st')
         ∧ channels_added w cell port (filter qualifies es) st st'.
Proof.
  revert port st. induction es as [|e es IH]; intros port st.
  - exists st. split; [|apply channels_added_nil].
    unfold next_port. simpl. unfold_M. destruct w; [|done].
    by rewrite N.add_0_r.
  - rewrite filter_cons. simpl. unfold mbind, M_bind.
    destruct (decide (qualifies e)) as [Hq|Hq].
    + destruct (prepare_entry_keep w cell port e st Hq) as (st1 & -> & H1).
      destruct (IH (next_port w port 1) st1) as (st' & -> & H').
      exists st'. split.
      * unfold next_port. destruct w; [|done]. simpl length.
        do 2 f_equal. lia.
      * by apply (channels_added_app w cell port [e] _ st st1 st').
    + rewrite prepare_entry_skip by done. apply IH.
Qed.

Lemma prepare_interfaces w cell (all : list QNetworkInterface) port st :
  ∃ st', for_fold all (λ available_port interface,
           for_fold (addressEntries interface) (prepare_entry w cell)
                    available_port) port st
         = (Ok (next_port w port (length (qualifying_entries all))), st')
         ∧ channels_added w cell port (qualifying_entries all) st st'.
Proof.
  unfold qualifying_entries. revert port st.
  induction all as [|interface all IH]; intros port st.
  - exists st. split; [|apply channels_added_nil].
    unfold next_port. simpl. unfold_M. destruct w; [|done].
    by rewrite N.add_0_r.
  - rewrite bind_cons, filter_app. simpl. unfold mbind at 1, M_bind at 1.
    destruct (prepare_entries w cell (addressEntries interface) port st)
      as (st1 & -> & H1).
    destruct (IH (next_port w port
                    (length (filter qualifies (addressEntries interface)))) st1)
      as (st' & -> & H').
    exists st'. split.
    + unfold next_port. destruct w; [|done]. rewrite length_app.
      do 2 f_equal. lia.
    + by eapply channels_added_app.
Qed.

Lemma prepare_channels w st :
  ∃ st', __prepare w st = (Ok (), st')
         ∧ channels_added w (length (cells st)) 20054
             (qualifying_entries (interfaces st))
             (set_trace (trace st ++ [AllInterfaces])
                (set_cells (cells st ++ [None]) (set_discover_sockets [] st)))
             st'.
Proof.
  unfold __prepare. unfold_M. simpl.
  match goal with
  | |- context [for_fold _ _ _ ?s] =>
      destruct (prepare_interfaces w (length (cells st)) (interfaces st) 20054 s)
        as (st' & Hrun & Hadded)
  end.
  exists st'. split; [|done]. simpl in Hrun. by rewrite Hrun.
Qed.

Lemma imap_tuples_are_tuples (base : nat) (es : list QNetworkAddressEntry) :
  Forall is_tuple (imap (λ i e, PyTuple (base + i) e) es).
Proof.
  revert base. induction es as [|e es IH]; intros base; simpl; [done|].
  constructor; [done|].
  rewrite (imap_ext _ (λ i e, PyTuple (S base + i) e)); [apply IH|].
  intros i x _. simpl. f_equal. lia.
Qed.

(** The loop of [__discover] over channels that are all tuples. *)
Lemma send_probes (socks : list pyobj) st :
  Forall is_tuple socks →
  ∃ probes,
    for_each socks (λ obj,
      '(socket, address_entry) ← unpack obj;
      writeDatagram socket (b "discover") (broadcast address_entry) DISCOVER_PORT) st
    = (Ok (), set_trace (trace st ++ probes) st)
    ∧ Forall2 (λ obj ev, probe obj = Some ev) socks probes.
Proof.
  intros Hsocks. revert st.
  induction Hsocks as [|[s|s e] socks Hobj _ IH]; intros st; [|done|].
  - exists []. split; [|constructor]. simpl. unfold_M.
    rewrite app_nil_r. by destruct st.
  - destruct (IH (set_trace
                    (trace st ++ [WriteDatagram s (b "discover") (broadcast e)
                                                DISCOVER_PORT]) st))
      as (probes & Hrun & Hprobes).
    exists (WriteDatagram s (b "discover") (broadcast e) DISCOVER_PORT :: probes).
    split; [|by constructor].
    simpl. unfold writeDatagram. unfold_M. simpl.
    unfold writeDatagram in Hrun. unfold_M_in Hrun. rewrite Hrun.
    f_equal. unfold set_trace. simpl. by rewrite <- (assoc_L (++)).
Qed.

(** A discovery round on channels that are all tuples: [__prepare] runs when
    there is no channel and only then, and one probe is written for each
    channel. *)
Lemma discover_round w st :
  Forall is_tuple (discover_sockets st) →
  ∃ st_mid probes,
    (if decide (discover_sockets st = [])
     then __prepare w st = (Ok (), st_mid)
     else st_mid = st)
    ∧ __discover w st = (Ok (), set_trace (trace st_mid ++ probes) st_mid)
    ∧ Forall2 (λ obj ev, probe obj = Some ev) (discover_sockets st_mid) probes.
Proof.
  intros Htuples. unfold __discover. unfold_M.
  destruct (discover_sockets st) as [|obj socks] eqn:Hsocks.
  - destruct (prepare_channels w st) as (st_mid & Hprep & Hadded).
    assert (Forall is_tuple (discover_sockets st_mid)) as Hmid.
    { rewrite (added_sockets _ _ _ _ _ _ Hadded). simpl.
      apply imap_tuples_are_tuples. }
    destruct (send_probes (discover_sockets st_mid) st_mid Hmid)
      as (probes & Hrun & Hprobes).
    exists st_mid, probes. rewrite decide_True by done.
    split; [done|]. split; [|done].
    rewrite Hprep. unfold writeDatagram in Hrun. unfold_M_in Hrun. apply Hrun.
  - destruct (send_probes (discover_sockets st) st) as (probes & Hrun & Hprobes);
      [by rewrite Hsocks|].
    exists st, probes. rewrite decide_False by done.
    split; [done|]. split; [|done].
    unfold writeDatagram in Hrun. unfold_M_in Hrun. apply Hrun.
Qed.

(** ** Invariant of the channel list *)

Lemma same_channels_refl st : same_channels st st.
Proof. done. Qed.

Lemma same_channels_trans st1 st2 st3 :
  same_channels st1 st2 → same_channels st2 st3 → same_channels st1 st3.
Proof.
  intros [Hs1 Hh1] [Hs2 Hh2]. split; [congruence|].
  intros socket. by rewrite Hh2, Hh1.
Qed.

Lemma channels_ok_same st st' :
  same_channels st st' → channels_ok st → channels_ok st'.
Proof.
  intros [Hs Hh]. unfold channels_ok. rewrite Hs. intros Hok.
  eapply Forall_impl; [exact Hok|].
  intros [s|s e]; simpl; [done|]. by rewrite Hh.
Qed.

Lemma channel_ok_is_tuple st obj : channel_ok st obj → is_tuple obj.
Proof. by destruct obj. Qed.

Lemma channels_ok_tuples st :
  channels_ok st → Forall is_tuple (discover_sockets st).
Proof.
  intros Hok. eapply Forall_impl; [exact Hok|]. apply channel_ok_is_tuple.
Qed.

Lemma alter_keeps_address (f : QUdpSocket → QUdpSocket) (socket : nat)
    (h : list QUdpSocket) (i : nat) :
  (∀ x, localAddress (f x) = localAddress x) →
  localAddress <$> alter f socket h !! i = localAddress <$> h !! i.
Proof.
  intros Hf. rewrite list_lookup_alter. case_decide; [subst|done].
  destruct (h !! i); simpl; [|done]. by rewrite Hf.
Qed.

Lemma prepare_channels_ok w st :
  ∃ st', __prepare w st = (Ok (), st') ∧ channels_ok st'.
Proof.
  destruct (prepare_channels w st) as (st' & Hrun & [Hs Hh _ _ _ _ _]).
  exists st'. split; [done|]. unfold channels_ok. rewrite Hs. simpl in *.
  apply Forall_lookup. intros i obj. rewrite list_lookup_imap.
  destruct (qualifying_entries (interfaces st) !! i) as [e|] eqn:He;
    simpl; [|done].
  intros [= <-]. split.
  - apply list_elem_of_lookup_2 in He.
    unfold qualifying_entries in He. by apply list_elem_of_filter in He as [? _].
  - rewrite Hh. rewrite lookup_app_r by lia.
    replace (length (heap st) + i - length (heap st))%nat with i by lia.
    rewrite list_lookup_imap, He. simpl. unfold prepared_socket.
    destruct (bind_succeeds st _ (ip e) _); [by left|by right].
Qed.

Lemma parseMessage_same_channels MACHINE_NAME ip msg st :
  same_channels st (__parseMessage MACHINE_NAME ip msg st).2.
Proof.
  unfold __parseMessage, register, getOutputDevice, addOutputDevice. unfold_M.
  destruct (parse_fields msg) as [[adv|]|]; simpl; try done.
  case_decide; simpl; [done|].
  by destruct (output_devices st !! device_id adv).
Qed.

Lemma drain_same_channels MACHINE_NAME socket pending st :
  same_channels st (drain MACHINE_NAME socket pending st).2.
Proof.
  revert st. induction pending as [|datagram rest IH]; intros st; [done|].
  simpl. unfold set_pending, try_except_pass, decode. unfold_M. simpl.
  set (st1 := set_heap _ st).
  assert (same_channels st st1) as H1.
  { split; [done|]. intros i. by apply alter_keeps_address. }
  destruct (isValid datagram && negb (isNull (senderAddress datagram))).
  - destruct (utf8_decode (data datagram)) as [msg|]; simpl.
    + pose proof (parseMessage_same_channels MACHINE_NAME
                    (toString (senderAddress datagram)) msg st1) as H2.
      destruct (__parseMessage MACHINE_NAME _ msg st1) as [[[]|e] st2];
        simpl in *.
      * eapply same_channels_trans; [|apply IH].
        by eapply same_channels_trans.
      * case_decide; simpl.
        -- eapply same_channels_trans; [|apply IH].
           by eapply same_channels_trans.
        -- by eapply same_channels_trans.
    + eapply same_channels_trans; [|apply IH]. done.
  - eapply same_channels_trans; [|apply IH]. done.
Qed.

Lemma start_same_channels st : same_channels st (start st).2.
Proof. unfold start. unfold_M. by destruct (timer_active st). Qed.

(** [stop] on channels that are all tuples: the timer is stopped, then the
    first channel makes the loop raise; nothing is aborted and the list of
    channels stays as it is. *)
Lemma stop_with_tuples st :
  Forall is_tuple (discover_sockets st) →
  let st1 := if timer_active st
             then set_trace (trace st ++ [TimerStop]) (set_timer_active false st)
             else st in
  stop st
  = match discover_sockets st with
    | [] => (Ok (), set_trace
                      (trace st1 ++ [LoggerInfo "Snapmaker J1 discovering stopped." []])
                      st1)
    | _ :: _ => (Raise AttributeError, st1)
    end.
Proof.
  intros Htuples. unfold stop. unfold_M.
  destruct (timer_active st) eqn:Hactive; simpl;
    destruct Htuples as [|[s|s e] socks Hobj _]; simpl; done.
Qed.

Lemma stop_same_channels st :
  Forall is_tuple (discover_sockets st) → same_channels st (stop st).2.
Proof.
  intros Htuples. rewrite stop_with_tuples by done.
  by destruct (timer_active st), (discover_sockets st).
Qed.

Lemma discover_channels_ok w st :
  channels_ok st → channels_ok (__discover w st).2.
Proof.
  intros Hok.
  destruct (discover_round w st (channels_ok_tuples st Hok))
    as (st_mid & probes & Hmid & -> & _).
  simpl. apply (channels_ok_same st_mid); [done|].
  case_decide; [|by subst].
  destruct (prepare_channels_ok w st) as (st' & Hrun & Hok').
  rewrite Hrun in Hmid. by injection Hmid as <-.
Qed.

Lemma readyRead_same_channels MACHINE_NAME socket st :
  same_channels st (readyRead_emit MACHINE_NAME socket st).2.
Proof.
  unfold readyRead_emit, _readSocket. unfold_M.
  match goal with |- context [match ?x with _ => _ end] => destruct x end;
    [apply drain_same_channels|done].
Qed.

(** In every reachable state the channels are tuples of a kept, that is
    non-loopback IPv4, address entry and a socket that is bound to its
    address or not bound at all. *)
Lemma reachable_channels_ok MACHINE_NAME w st :
  reachable MACHINE_NAME w st → channels_ok st.
Proof.
  induction 1 as [interfaces|st a _ IH|st devices _ IH|st ok _ IH];
    [by constructor| |done|done].
  pose proof (channels_ok_tuples st IH) as Htuples.
  unfold exec. destruct a; simpl.
  - apply (channels_ok_same st); [apply start_same_channels|done].
  - apply (channels_ok_same st); [by apply stop_same_channels|done].
  - by apply discover_channels_ok.
  - unfold timeout. unfold_M. destruct (timer_active st); [|done].
    by apply discover_channels_ok.
  - apply (channels_ok_same st); [apply readyRead_same_channels|done].
  - unfold _onGlobalContainerStackChanged. case_decide.
    + apply (channels_ok_same st); [apply start_same_channels|done].
    + apply (channels_ok_same st); [by apply stop_same_channels|done].
  - done.
  - apply (channels_ok_same st); [|done]. unfold_M. split; [done|].
    intros i. by apply alter_keeps_address.
Qed.

(** ** Stopping and restarting *)

Lemma discovering_reachable MACHINE_NAME w :
  reachable MACHINE_NAME w (discovering MACHINE_NAME w).
Proof. unfold discovering. do 2 apply reachable_step. apply reachable_init. Qed.

(** Whatever the channels are, [stop] leaves the list of channels as it
    is. *)
Lemma abort_loop_keeps_discover_sockets (socks : list pyobj) st :
  discover_sockets (for_each socks call_abort st).2 = discover_sockets st.
Proof.
  revert st. induction socks as [|[s|s e] socks IH]; intros st; try done.
  simpl. unfold abort. unfold_M. simpl. by rewrite IH.
Qed.

Lemma stop_keeps_discover_sockets st :
  discover_sockets (stop st).2 = discover_sockets st.
Proof.
  unfold stop. unfold_M.
  destruct (timer_active st); simpl;
    match goal with
    | |- context [for_each ?l ?f ?s] =>
        pose proof (abort_loop_keeps_discover_sockets l s) as H;
        destruct (for_each l f s) as [[[]|e] s']
    end; done.
Qed.

(** In a reachable state that has a channel, [stop] raises. *)
Lemma stop_raises_when_reachable MACHINE_NAME w st :
  reachable MACHINE_NAME w st →
  discover_sockets st ≠ [] →
  (stop st).1 = Raise AttributeError
  ∧ discover_sockets (stop st).2 = discover_sockets st
  ∧ heap (stop st).2 = heap st.
Proof.
  intros Hreach Hsocks.
  pose proof (channels_ok_tuples st (reachable_channels_ok _ _ _ Hreach)) as Ht.
  rewrite stop_with_tuples by done.
  destruct (discover_sockets st) eqn:E; [done|].
  by destruct (timer_active st).
Qed.

(** In a reachable state that has a channel, the round that follows [stop]
    does not enumerate the interfaces: it writes one probe for each of the
    channels that were there before. *)
Lemma round_after_stop MACHINE_NAME w st :
  reachable MACHINE_NAME w st →
  discover_sockets st ≠ [] →
  let st1 := exec MACHINE_NAME w st DoStop in
  ∃ probes,
    __discover w st1 = (Ok (), set_trace (trace st1 ++ probes) st1)
    ∧ Forall2 (λ obj ev, probe obj = Some ev) (discover_sockets st) probes
    ∧ AllInterfaces ∉ probes.
Proof.
  intros Hreach Hsocks st1.
  assert (reachable MACHINE_NAME w st1) as Hreach1 by by apply reachable_step.
  assert (discover_sockets st1 = discover_sockets st) as Hsame
    by apply stop_keeps_discover_sockets.
  pose proof (channels_ok_tuples st1 (reachable_channels_ok _ _ _ Hreach1)) as Ht.
  destruct (discover_round w st1 Ht) as (st_mid & probes & Hmid & Hrun & Hprobes).
  rewrite decide_False in Hmid by (by rewrite Hsame). subst st_mid.
  exists probes. rewrite <- Hsame. repeat split; try done.
  intros Hin. apply list_elem_of_lookup in Hin as [i Hi].
  destruct (Forall2_lookup_r _ _ _ _ _ Hprobes Hi) as (obj & _ & Hobj).
  by destruct obj.
Qed.

(** C1, on the code: [stop()] does not complete once channels exist.  On a
    host with one network card, after [start()] and one tick of the timer the
    list holds the tuple [(socket, address_entry)]; [stop()] stops the timer
    and then raises [AttributeError] at [socket.abort()], the tuple having no
    such attribute.  No socket is aborted, and a second [stop()] raises
    again. *)
Theorem stop_raises_with_channels MACHINE_NAME w :
  let st := discovering MACHINE_NAME w in
  discover_sockets st = [PyTuple 0 lan]
  ∧ timer_active st = true
  ∧ stop st
    = (Raise AttributeError,
       set_trace (trace st ++ [TimerStop]) (set_timer_active false st))
  ∧ stop (stop st).2 = (Raise AttributeError, (stop st).2)
  ∧ heap (stop (stop st).2).2 = heap st
  ∧ localAddress <$> heap (stop (stop st).2).2 !! 0%nat
    = Some (Some (ip lan)).
Proof. destruct w; vm_compute; done. Qed.

(** C2, on the code: after [stop()] the next round does not rebuild the
    channels.  [stop()] never empties [_discover_sockets] (and here raises
    before it aborts anything), so the round that follows [start()] finds the
    old channel, does not call [__prepare] (no [AllInterfaces] in the trace)
    and sends its probe to the broadcast address of the old network, although
    the host now has another address. *)
Theorem restart_keeps_old_channels MACHINE_NAME w :
  let st := discovering MACHINE_NAME w in
  let st1 := exec MACHINE_NAME w (exec MACHINE_NAME w st DoStop)
               (EnvInterfaces office_host) in
  let st2 := exec MACHINE_NAME w (exec MACHINE_NAME w st1 DoStart) DoTimeout in
  discover_sockets st = [PyTuple 0 lan]
  ∧ discover_sockets st1 = [PyTuple 0 lan]
  ∧ qualifying_entries (interfaces st1) = [office]
  ∧ discover_sockets st2 = [PyTuple 0 lan]
  ∧ trace st2
    = trace st ++ [TimerStop; TimerStart;
                   LoggerInfo "Snapmaker J1 discovering started." [];
                   WriteDatagram 0 (b "discover") (broadcast lan) 20054].
Proof. destruct w; vm_compute; done. Qed.

(** ** Channels and probes *)







(** Where [bind] fails, [__prepare] keeps the channel all the same and the
    round writes its probe through a socket that is not bound. *)
Lemma probe_through_unbound_socket MACHINE_NAME w :
  let st := set_bind_succeeds (λ _ _ _, false) (__init__ home_host) in
  let st' := exec MACHINE_NAME w st DoStartDiscovery in
  discover_sockets st' = [PyTuple 0 lan]
  ∧ localAddress <$> heap st' !! 0%nat = Some None
  ∧ trace st'
    = [AllInterfaces;
       LoggerInfo "Discovering printers on network interface: %s"
                  [toString (ip lan)];
       Bind 0 (ip lan) (requested_port w 20054 0);
       WriteDatagram 0 (b "discover") (broadcast lan) 20054].
Proof. destruct w; vm_compute; done. Qed.

(** ** The closures connected to [readyRead]

    Every closure that one call of [__prepare] connects reads the same
    variable [socket], which holds the last socket of that call: on a host
    with two network cards a datagram that arrives on the first socket makes
    the plugin drain the second one, and the datagram stays where it is. *)
Lemma readyRead_reads_last_socket MACHINE_NAME w :
  let host := [ {| addressEntries := [lan] |}; {| addressEntries := [office] |} ] in
  let reply := {| isValid := true; senderAddress := ipv4 "192.168.1.77";
                  data := b "J1@192.168.1.77|model:J1" |} in
  let st := exec MACHINE_NAME w (__init__ host) DoStartDiscovery in
  let st1 := exec MACHINE_NAME w st (EnvDatagram 0 reply) in
  discover_sockets st = [PyTuple 0 lan; PyTuple 1 office]
  ∧ cells st = [Some 1%nat]
  ∧ readyRead_emit MACHINE_NAME 0 st1 = _readSocket MACHINE_NAME 1 st1
  ∧ pending_of 0 (exec MACHINE_NAME w st1 (DoReadyRead 0)) = [reply].
Proof. destruct w; vm_compute; done. Qed.

(** * Further properties of the plugin *)

(** ** [split] and [join] *)

Lemma join_cons sep p q (ps : list (list N)) :
  join sep (p :: q :: ps) = p ++ sep :: join sep (q :: ps).
Proof. done. Qed.

Lemma join_split sep s : join sep (split sep s) = s.
Proof.
  induction s as [|c s IH]; [done|]. cbn [split].
  destruct (decide (c = sep)) as [->|Hc].
  - pose proof (split_not_nil sep s) as Hne.
    destruct (split sep s) as [|q qs] eqn:E; [done|].
    rewrite join_cons. by rewrite IH.
  - destruct (split sep s) as [|q [|r qs]] eqn:E.
    + by destruct (split_not_nil sep s).
    + simpl in *. by rewrite IH.
    + rewrite join_cons in IH |- *. by rewrite <- IH.
Qed.

Lemma split_join sep (parts : list (list N)) :
  parts ≠ [] → Forall (λ p, sep ∉ p) parts →
  split sep (join sep parts) = parts.
Proof.
  intros Hne Hparts. induction Hparts as [|p ps Hp Hps IH]; [done|].
  destruct ps as [|q qs].
  - simpl. by apply split_no_sep.
  - rewrite join_cons, split_app_sep by done. by rewrite IH.
Qed.

Lemma split_pieces_no_sep sep s : Forall (λ p, sep ∉ p) (split sep s).
Proof.
  induction s as [|c s IH]; cbn [split].
  - repeat constructor. by intros ?%elem_of_nil.
  - destruct (decide (c = sep)) as [->|Hc].
    + constructor; [by intros ?%elem_of_nil|done].
    + destruct (split sep s) as [|q qs] eqn:E;
        [by destruct (split_not_nil sep s)|].
      apply Forall_cons in IH as [Hq Hqs]. constructor; [|done].
      rewrite elem_of_cons. by intros [?|?].
Qed.

Lemma count_zero_not_elem_of c s : count c s = 0%nat ↔ c ∉ s.
Proof.
  unfold count. split.
  - intros H Hin.
    assert (c ∈ filter (λ x, x = c) s) as Hc by by apply list_elem_of_filter.
    destruct (filter (λ x, x = c) s); [by apply elem_of_nil in Hc|done].
  - intros Hnot. destruct (filter (λ x, x = c) s) as [|x l] eqn:E; [done|].
    assert (x ∈ filter (λ x, x = c) s) as Hx by (rewrite E; left).
    apply list_elem_of_filter in Hx as [-> ?]. done.
Qed.

Lemma split_two sep s x y :
  split sep s = [x; y] → s = x ++ sep :: y ∧ (sep ∉ x) ∧ (sep ∉ y).
Proof.
  intros Hs. pose proof (join_split sep s) as Hj.
  pose proof (split_pieces_no_sep sep s) as Hp. rewrite Hs in Hj, Hp.
  apply Forall_cons in Hp as [Hx Hp]. apply Forall_cons in Hp as [Hy _].
  by rewrite join_cons in Hj.
Qed.

Lemma split_two_iff sep s :
  (∃ x y, split sep s = [x; y]) ↔ count sep s = 1%nat.
Proof.
  pose proof (length_split sep s) as Hlen. split.
  - intros (x & y & Hs). rewrite Hs in Hlen. cbn [length] in Hlen. lia.
  - intros Hc. rewrite Hc in Hlen.
    destruct (split sep s) as [|x [|y [|z l]]]; cbn [length] in Hlen;
      try done. by exists x, y.
Qed.

(** ** The outcome of the parse *)

Lemma parse_properties_outcome (parts : list (list N)) props :
  (∀ e, parse_properties parts props = Raise e → e = ValueError)
  ∧ ((∃ props', parse_properties parts props = Ok props')
     ↔ Forall (λ p, (count (chr ":") p ≤ 1)%nat) parts).
Proof.
  revert props. induction parts as [|part parts IH]; intros props; simpl.
  - split; [done|]. split; [done|]. by exists props.
  - destruct (decide (chr ":" ∈ part)) as [Hin|Hnot].
    + destruct (split (chr ":") part) as [|x [|y [|z l]]] eqn:Hs.
      * by destruct (split_not_nil (chr ":") part).
      * pose proof (length_split (chr ":") part) as Hlen. rewrite Hs in Hlen.
        cbn [length] in Hlen.
        assert (count (chr ":") part = 0%nat) as H0 by lia.
        by apply count_zero_not_elem_of in H0.
      * assert (count (chr ":") part = 1%nat) as H1
          by (apply split_two_iff; eauto).
        destruct (IH (<[x:=y]> props)) as [IH1 IH2]. split; [done|].
        rewrite IH2, Forall_cons. split; [intros; split; [lia|done]|by intros []].
      * pose proof (length_split (chr ":") part) as Hlen. rewrite Hs in Hlen.
        cbn [length] in Hlen. split; [by intros e [= <-]|].
        split; [by intros [? ?]|]. intros [Hc _]%Forall_cons. lia.
    + apply count_zero_not_elem_of in Hnot.
      destruct (IH props) as [IH1 IH2]. split; [done|].
      rewrite IH2, Forall_cons. split; [intros; split; [lia|done]|by intros []].
Qed.

(** X2: the outcome of the parse is decided by the counts of separators.  The
    message is dropped as invalid exactly when its first segment has no
    ["@"]; it is parsed exactly when the first segment has one ["@"] and no
    later segment has more than one [":"]; in every other case the parse
    raises, and the only exception it ever raises is [ValueError]. *)
Theorem parse_outcome (msg : list N) :
  (parse_fields msg = Ok None ↔ chr "@" ∉ header msg)
  ∧ ((∃ adv, parse_fields msg = Ok (Some adv))
     ↔ count (chr "@") (header msg) = 1%nat
       ∧ Forall (λ p, (count (chr ":") p ≤ 1)%nat) (property_segments msg))
  ∧ (parse_fields msg = Raise ValueError
     ↔ (2 ≤ count (chr "@") (header msg))%nat
       ∨ (count (chr "@") (header msg) = 1%nat
          ∧ Exists (λ p, (2 ≤ count (chr ":") p)%nat) (property_segments msg)))
  ∧ (∀ e, parse_fields msg = Raise e → e = ValueError).
Proof.
  unfold parse_fields, header, property_segments.
  destruct (split (chr "|") msg) as [|part0 rest] eqn:Hsplit;
    [by destruct (split_not_nil (chr "|") msg)|].
  cbn [hd tail].
  destruct (decide (chr "@" ∈ part0)) as [Hin|Hnot].
  - assert (count (chr "@") part0 ≠ 0%nat) as Hpos
      by (by intros ?%count_zero_not_elem_of).
    pose proof (length_split (chr "@") part0) as Hlen.
    destruct (split (chr "@") part0) as [|x [|y [|z l]]] eqn:Hs;
      cbn [length] in Hlen; try lia.
    + destruct (parse_properties_outcome rest ∅) as [Hexn Hok].
      assert (count (chr "@") part0 = 1%nat) as H1 by lia.
      destruct (parse_properties rest ∅) as [props|e] eqn:Hprops.
      * assert (Forall (λ p, (count (chr ":") p ≤ 1)%nat) rest) as Hall
          by (apply Hok; eauto).
        split_and!; [split; done|split; eauto| |done].
        split; [done|]. intros [?|[_ Hex]]; [lia|].
        apply Exists_exists in Hex as (p & Hp & Hc).
        rewrite Forall_forall in Hall. specialize (Hall p Hp). lia.
      * rewrite (Hexn e eq_refl).
        assert (¬ Forall (λ p, (count (chr ":") p ≤ 1)%nat) rest) as Hall
          by (intros [? ?]%Hok; done).
        split_and!; [split; done| | |by intros ? [= <-]].
        -- split; [by intros [? ?]|by intros [_ ?]].
        -- split; [|done]. intros _. right. split; [done|].
           apply not_Forall_Exists in Hall; [|intros p; apply _].
           eapply Exists_impl; [exact Hall|]. simpl. intros p. lia.
    + split_and!; [split; done| | |by intros ? [= <-]].
      * split; [by intros [? ?]|intros [? _]; lia].
      * split; [|done]. intros _. left. lia.
  - assert (count (chr "@") part0 = 0%nat) as H0
      by (by apply count_zero_not_elem_of).
    split_and!; [split; done| | |done].
    + split; [by intros [? ?]|intros [? _]; lia].
    + split; [done|]. intros [?|[? _]]; lia.
Qed.

(** X1: a message whose first segment has no ["@"], the empty message
    included, is an invalid message: [__parseMessage] returns at once, without
    an exception and without any effect on the plugin or the registry. *)
Theorem invalid_message_ignored MACHINE_NAME ip (msg : list N) st :
  chr "@" ∉ header msg →
  __parseMessage MACHINE_NAME ip msg st = (Ok (), st).
Proof.
  unfold header, __parseMessage, parse_fields. unfold_M. intros Hnot.
  destruct (split (chr "|") msg) as [|part0 rest]; [done|].
  cbn [hd] in Hnot. by rewrite decide_False.
Qed.

Lemma invalid_message_ignored_witness :
  let st := discovering (u "Snapmaker J1") false in
  __parseMessage (u "Snapmaker J1") (u "172.18.0.9")
    (u "model:Snapmaker J1|status:IDLE") st = (Ok (), st)
  ∧ __parseMessage (u "Snapmaker J1") (u "172.18.0.9") [] st = (Ok (), st).
Proof.
  intros st. split; apply invalid_message_ignored;
    apply (bool_decide_unpack _); vm_compute; exact I.
Defined.

Lemma parse_properties_skip (front back : list (list N)) part props :
  chr ":" ∉ part →
  parse_properties (front ++ part :: back) props
  = parse_properties (front ++ back) props.
Proof.
  intros Hnot. revert props.
  induction front as [|p front IH]; intros props; simpl.
  - by rewrite decide_False.
  - case_decide; [|apply IH].
    destruct (split (chr ":") p) as [|x [|y [|z l]]]; first [done|apply IH].
Qed.

(** X3: a segment without [":"] is skipped, wherever it stands among the
    property segments: the message parses as it does without that segment. *)
Theorem colonless_segment_skipped (part0 part : list N) (front back : list (list N)) :
  Forall (λ p, chr "|" ∉ p) (part0 :: front ++ part :: back) →
  chr ":" ∉ part →
  parse_fields (join (chr "|") (part0 :: front ++ part :: back))
  = parse_fields (join (chr "|") (part0 :: front ++ back)).
Proof.
  intros Hparts Hnot. unfold parse_fields.
  rewrite !split_join; try done.
  - case_decide; [|done].
    destruct (split (chr "@") part0) as [|x [|y [|z l]]]; try done.
    by rewrite parse_properties_skip.
  - apply Forall_cons in Hparts as [H0 Hrest]. constructor; [done|].
    apply Forall_app in Hrest as [Hf Hb]. apply Forall_cons in Hb as [_ Hb].
    by apply Forall_app.
Qed.

Lemma colonless_segment_skipped_witness :
  parse_fields (u "X@1.2.3.4|model:J1|garbage")
  = parse_fields (u "X@1.2.3.4|model:J1")
  ∧ parse_fields (u "X@1.2.3.4|model:J1|garbage")
    = Ok (Some {| device_id := u "X@1.2.3.4"; name := u "X";
                  address := u "1.2.3.4";
                  properties := {[ u "model" := u "J1" ]} |}).
Proof.
  split.
  - apply (colonless_segment_skipped (u "X@1.2.3.4") (u "garbage")
             [u "model:J1"] []).
    + repeat constructor; apply (bool_decide_unpack _); vm_compute; exact I.
    + apply (bool_decide_unpack _); vm_compute; exact I.
  - vm_compute. reflexivity.
Defined.

Lemma parse_properties_sound (parts : list (list N)) props0 props :
  parse_properties parts props0 = Ok props →
  ∀ k v, props !! k = Some v →
    props0 !! k = Some v
    ∨ (k ++ chr ":" :: v ∈ parts ∧ (chr ":" ∉ k) ∧ (chr ":" ∉ v)).
Proof.
  revert props0. induction parts as [|part parts IH]; intros props0; simpl.
  - intros [= <-] k v Hk. by left.
  - case_decide.
    + destruct (split (chr ":") part) as [|x [|y [|z l]]] eqn:Hs; try done.
      intros Hrun k v Hk.
      destruct (IH _ Hrun k v Hk) as [Hin|(Hin & ? & ?)].
      * apply lookup_insert_Some in Hin as [[<- <-]|[_ Hin]]; [|by left].
        destruct (split_two _ _ _ _ Hs) as (-> & ? & ?).
        right. split; [left|done].
      * right. split; [by right|done].
    + intros Hrun k v Hk.
      destruct (IH _ Hrun k v Hk) as [Hin|(Hin & ? & ?)]; [by left|].
      right. split; [by right|done].
Qed.

(** X4: what a parsed advertisement holds.  The device id is the first
    segment of the message and reads [name@address], with no ["@"] in the
    name or in the address; every property comes from a segment [key:value]
    of the message, and neither keys nor values contain [":"] or ["|"]. *)
Theorem parsed_fields_sound (msg : list N) adv :
  parse_fields msg = Ok (Some adv) →
  device_id adv = header msg
  ∧ device_id adv = name adv ++ chr "@" :: address adv
  ∧ (chr "@" ∉ name adv) ∧ (chr "@" ∉ address adv)
  ∧ (chr "|" ∉ device_id adv)
  ∧ ∀ k v, properties adv !! k = Some v →
      k ++ chr ":" :: v ∈ property_segments msg
      ∧ (chr ":" ∉ k) ∧ (chr ":" ∉ v) ∧ (chr "|" ∉ k) ∧ (chr "|" ∉ v).
Proof.
  unfold parse_fields, header, property_segments.
  pose proof (split_pieces_no_sep (chr "|") msg) as Hpieces.
  destruct (split (chr "|") msg) as [|part0 rest]; [done|]. cbn [hd tail].
  apply Forall_cons in Hpieces as [H0 Hrest].
  case_decide; [|done].
  destruct (split (chr "@") part0) as [|x [|y [|z l]]] eqn:Hs; try done.
  destruct (parse_properties rest ∅) as [props|e] eqn:Hprops; [|done].
  intros [= <-]. simpl. destruct (split_two _ _ _ _ Hs) as (Heq & ? & ?).
  split_and!; try done. intros k v Hk.
  destruct (parse_properties_sound rest ∅ props Hprops k v Hk)
    as [Hin|(Hin & ? & ?)]; [by rewrite lookup_empty in Hin|].
  rewrite Forall_forall in Hrest. specialize (Hrest _ Hin).
  split_and!; try done.
  - intros Hin'. apply Hrest. apply elem_of_app. by left.
  - intros Hin'. apply Hrest. apply elem_of_app. right. by right.
Qed.

Lemma parsed_fields_sound_witness :
  ∃ adv,
    parse_fields (u "Snapmaker J1@172.18.0.2|model:J1|status:IDLE") = Ok (Some adv)
    ∧ device_id adv = name adv ++ chr "@" :: address adv
    ∧ ∀ k v, properties adv !! k = Some v →
        k ++ chr ":" :: v
        ∈ property_segments (u "Snapmaker J1@172.18.0.2|model:J1|status:IDLE").
Proof.
  eexists. split; [vm_compute; reflexivity|].
  destruct (parsed_fields_sound
              (u "Snapmaker J1@172.18.0.2|model:J1|status:IDLE") _ eq_refl)
    as (_ & Hid & _ & _ & _ & Hprops).
  split; [exact Hid|]. intros k v Hk. by destruct (Hprops k v Hk).
Defined.

(** ** Keys that come more than once *)

Lemma first_separator_unique (sep : N) (x y k v : list N) :
  x ++ sep :: y = k ++ sep :: v → sep ∉ x → sep ∉ y → x = k ∧ y = v.
Proof.
  revert k. induction x as [|c x IH]; intros [|c' k] Heq Hx Hy; simpl in Heq.
  - by injection Heq as ->.
  - injection Heq as <- ->. destruct Hy. apply elem_of_app. right. left.
  - injection Heq as -> _. destruct Hx. left.
  - injection Heq as <- Heq. apply not_elem_of_cons in Hx as [_ Hx].
    destruct (IH k Heq Hx Hy) as [-> ->]. done.
Qed.

Lemma parse_properties_app (front back : list (list N)) props :
  parse_properties (front ++ back) props
  = match parse_properties front props with
    | Ok props' => parse_properties back props'
    | Raise e => Raise e
    end.
Proof.
  revert props. induction front as [|part front IH]; intros props; simpl;
    [done|].
  case_decide; [|apply IH].
  destruct (split (chr ":") part) as [|x [|y [|z l]]]; first [done|apply IH].
Qed.

(** Segments that do not assign to [k] leave the entry of [k] as it was. *)
Lemma parse_properties_frame (k : list N) (parts : list (list N)) props props' :
  Forall (λ part, ∀ v, part ≠ k ++ chr ":" :: v) parts →
  parse_properties parts props = Ok props' →
  props' !! k = props !! k.
Proof.
  intros Hparts. revert props.
  induction Hparts as [|part parts Hpart _ IH]; intros props; simpl.
  - by intros [= <-].
  - case_decide; [|apply IH].
    destruct (split (chr ":") part) as [|x [|y [|z l]]] eqn:Hs; try done.
    intros Hrun. rewrite (IH _ Hrun).
    destruct (split_two _ _ _ _ Hs) as (-> & _ & _).
    apply lookup_insert_ne. intros ->. by apply (Hpart y).
Qed.

(** C5: when a key comes in several segments of a message the later one
    overwrites the earlier ones.  Whatever the message, if it parses, the
    entry of a key [k] is the value of the last segment [k:v], whatever
    segments come before it, the same key among them; on
    ["X@1.2.3.4|model:J1|model:J2"] the entry for ["model"] is ["J2"]. *)
Theorem later_key_overwrites (msg : list N) adv (front back : list (list N))
    (k v : list N) :
  parse_fields msg = Ok (Some adv) →
  property_segments msg = front ++ (k ++ chr ":" :: v) :: back →
  Forall (λ part, ∀ v', part ≠ k ++ chr ":" :: v') back →
  properties adv !! k = Some v.
Proof.
  unfold parse_fields, property_segments.
  destruct (split (chr "|") msg) as [|part0 rest]; [done|]. cbn [tail].
  case_decide; [|done].
  destruct (split (chr "@") part0) as [|x [|y [|z l]]]; try done.
  destruct (parse_properties rest ∅) as [props|e] eqn:Hprops; [|done].
  intros [= <-] -> Hback. simpl.
  rewrite parse_properties_app in Hprops.
  destruct (parse_properties front ∅) as [props1|e]; [|done].
  simpl in Hprops.
  rewrite decide_True in Hprops by (apply elem_of_app; right; left).
  destruct (split (chr ":") (k ++ chr ":" :: v)) as [|x' [|y' [|z' l']]] eqn:Hs;
    try done.
  destruct (split_two _ _ _ _ Hs) as (Heq & Hx & Hy).
  symmetry in Heq. destruct (first_separator_unique _ _ _ _ _ Heq Hx Hy) as [-> ->].
  rewrite (parse_properties_frame _ _ _ _ Hback Hprops).
  apply lookup_insert_eq.
Qed.

Lemma later_key_overwrites_witness :
  (∃ adv,
     parse_fields (u "X@1.2.3.4|model:J1|model:J2") = Ok (Some adv)
     ∧ properties adv !! u "model" = Some (u "J2"))
  ∧ (∃ adv,
       parse_fields (u "X@1.2.3.4|model:J1|status:IDLE|model:J2|ip:1.2.3.4")
       = Ok (Some adv)
       ∧ properties adv !! u "model" = Some (u "J2")).
Proof.
  split.
  - eexists. split; [vm_compute; reflexivity|].
    apply (later_key_overwrites (u "X@1.2.3.4|model:J1|model:J2") _
             [u "model:J1"] [] (u "model") (u "J2"));
      [vm_compute; reflexivity|vm_compute; reflexivity|constructor].
  - eexists. split; [vm_compute; reflexivity|].
    apply (later_key_overwrites
             (u "X@1.2.3.4|model:J1|status:IDLE|model:J2|ip:1.2.3.4") _
             [u "model:J1"; u "status:IDLE"] [u "ip:1.2.3.4"]
             (u "model") (u "J2"));
      [vm_compute; reflexivity|vm_compute; reflexivity|].
    repeat constructor. intros v' Heq. vm_compute in Heq. discriminate Heq.
Defined.

(** ** What a call leaves related *)

Section Preserves.
Context (R : relation State) `{!PreOrder R}.

Lemma preserves_mret {A} (a : A) : preserves R (mret a).
Proof. intros st. reflexivity. Qed.

Lemma preserves_gets {A} (f : State → A) : preserves R (gets f).
Proof. intros st. reflexivity. Qed.

Lemma preserves_raise {A} e : preserves R (raise (A:=A) e).
Proof. intros st. reflexivity. Qed.

Lemma preserves_lift {A} (o : outcome A) : preserves R (lift o).
Proof. intros st. reflexivity. Qed.

Lemma preserves_modify (f : State → State) :
  (∀ st, R st (f st)) → preserves R (modify f).
Proof. intros Hf st. apply Hf. Qed.

Lemma preserves_bind {A B} (m : M A) (f : A → M B) :
  preserves R m → (∀ a, preserves R (f a)) → preserves R (m ≫= f).
Proof.
  intros Hm Hf st. unfold mbind, M_bind. specialize (Hm st).
  destruct (m st) as [[a|e] st']; simpl in *; [|done].
  etrans; [exact Hm|apply Hf].
Qed.

Lemma preserves_for_each {A} (l : list A) (body : A → M unit) :
  (∀ x, preserves R (body x)) → preserves R (for_each l body).
Proof.
  intros Hbody. induction l as [|x l IH]; simpl.
  - apply preserves_mret.
  - apply preserves_bind; [apply Hbody|by intros _].
Qed.

Lemma preserves_for_fold {A B} (l : list A) (body : B → A → M B) acc :
  (∀ acc x, preserves R (body acc x)) → preserves R (for_fold l body acc).
Proof.
  intros Hbody. revert acc. induction l as [|x l IH]; intros acc; simpl.
  - apply preserves_mret.
  - apply preserves_bind; [apply Hbody|apply IH].
Qed.

Lemma preserves_try_except_pass (body : M unit) e :
  preserves R body → preserves R (try_except_pass body e).
Proof.
  intros Hbody st. unfold try_except_pass. specialize (Hbody st).
  destruct (body st) as [[[]|e'] st']; simpl in *; [done|].
  by case_decide.
Qed.
End Preserves.

(** Breaks a program down to its changes of the state. *)
Ltac preorder_goal :=
  try match goal with |- PreOrder _ => solve [apply _] end.

Ltac preserves_tac :=
  repeat first
    [ progress cbv beta zeta
    | match goal with
      | |- preserves _ (mret _) => apply preserves_mret; preorder_goal
      | |- preserves _ (gets _) => apply preserves_gets; preorder_goal
      | |- preserves _ (raise _) => apply preserves_raise; preorder_goal
      | |- preserves _ (lift _) => apply preserves_lift; preorder_goal
      | |- preserves _ (modify _) => apply preserves_modify; intros ?
      | |- preserves _ (_ ≫= _) =>
          apply preserves_bind; preorder_goal; [|intros ?]
      | |- preserves _ (for_each _ _) =>
          apply preserves_for_each; preorder_goal; intros ?
      | |- preserves _ (for_fold _ _ _) =>
          apply preserves_for_fold; preorder_goal; intros ? ?
      | |- preserves _ (try_except_pass _ _) =>
          apply preserves_try_except_pass; preorder_goal
      | |- preserves _ (if ?x then _ else _) => destruct x
      | |- preserves _ (match ?x with _ => _ end) => destruct x
      end ].

Lemma keeps_preorder {B} (f : State → B) : PreOrder (keeps f).
Proof.
  split; [done|]. intros st1 st2 st3 H1 H2. unfold keeps in *. congruence.
Qed.

Lemma registry_grows_preorder : PreOrder registry_grows.
Proof.
  split.
  - intros st. unfold registry_grows. reflexivity.
  - intros st1 st2 st3 H1 H2. unfold registry_grows in *. by etrans.
Qed.

Lemma appends_preorder P : PreOrder (appends P).
Proof.
  split.
  - intros st. exists []. by rewrite app_nil_r.
  - intros st1 st2 st3 (evs1 & H1 & HP1) (evs2 & H2 & HP2).
    exists (evs1 ++ evs2). rewrite H2, H1, (assoc_L (++)).
    split; [done|by apply Forall_app].
Qed.

#[global] Existing Instances keeps_preorder registry_grows_preorder
  appends_preorder.

(** Unfolds the operations on the Qt objects and on the registry down to
    [modify]. *)
Ltac unfold_ops :=
  unfold emit, bind, readyRead_connect, writeDatagram, abort, set_pending,
    update_socket, getOutputDevice, addOutputDevice, unpack, call_abort,
    QUdpSocket_new.

Ltac preserves_ops := repeat (preserves_tac; unfold_ops).

(** ** Components of the state that a call does not touch *)

Ltac keeps_tac :=
  preserves_ops; try done; unfold preserves; intros; unfold keeps; done.

(** A discovery round touches neither the timer nor the registry. *)
Lemma prepare_keeps w :
  preserves (keeps (λ st, (timer_active st, output_devices st, interfaces st)))
            (__prepare w).
Proof. unfold __prepare, prepare_entry. keeps_tac. Qed.

Lemma discover_keeps w :
  preserves (keeps (λ st, (timer_active st, output_devices st, interfaces st)))
            (__discover w).
Proof.
  unfold __discover. preserves_ops; try apply prepare_keeps; keeps_tac.
Qed.

(** Parsing a message touches only the registry and the trace. *)
Lemma parseMessage_keeps MACHINE_NAME ip msg :
  preserves (keeps (λ st, (timer_active st, discover_sockets st, heap st,
                           cells st, interfaces st)))
            (__parseMessage MACHINE_NAME ip msg).
Proof. unfold __parseMessage, register. keeps_tac. Qed.

Lemma drain_keeps MACHINE_NAME socket pending :
  preserves (keeps (λ st, (timer_active st, discover_sockets st, cells st,
                           interfaces st, length (heap st))))
            (drain MACHINE_NAME socket pending).
Proof.
  induction pending as [|datagram rest IH]; simpl; [keeps_tac|].
  unfold __parseMessage, register.
  preserves_ops; try apply IH; try done;
    unfold preserves; intros; unfold keeps; simpl; by rewrite ?length_alter.
Qed.

Lemma start_keeps :
  preserves (keeps (λ st, (discover_sockets st, heap st, cells st,
                           output_devices st, interfaces st))) start.
Proof. unfold start. keeps_tac. Qed.

Lemma stop_keeps :
  preserves (keeps (λ st, (discover_sockets st, cells st, output_devices st,
                           interfaces st, length (heap st)))) stop.
Proof.
  unfold stop. preserves_ops; try done;
    unfold preserves; intros; unfold keeps; simpl; by rewrite ?length_alter.
Qed.

(** ** The life cycle *)

(** X5: [start()] is idempotent and never raises: it leaves the timer
    running, and a second call changes nothing at all.  It sends no probe of
    its own: the first round comes with the first tick. *)
Theorem start_idempotent st :
  (start st).1 = Ok ()
  ∧ timer_active (start st).2 = true
  ∧ start (start st).2 = (Ok (), (start st).2)
  ∧ appends (λ ev, ¬ is_write ev) st (start st).2.
Proof.
  unfold start, appends. unfold_M.
  destruct (timer_active st) eqn:Hactive; simpl.
  - rewrite Hactive. split_and!; try done. exists []. by rewrite app_nil_r.
  - split_and!; try done. eexists. rewrite <- (assoc_L (++)).
    split; [done|]. repeat constructor; by intros [].
Qed.

Lemma abort_loop_keeps (socks : list pyobj) :
  preserves (keeps (λ st, (timer_active st, discover_sockets st)))
    (for_each socks call_abort;;
     emit (LoggerInfo "Snapmaker J1 discovering stopped." [])).
Proof. keeps_tac. Qed.

Lemma stop_unfold st :
  let st1 := if timer_active st
             then set_trace (trace st ++ [TimerStop]) (set_timer_active false st)
             else st in
  stop st
  = (for_each (discover_sockets st1) call_abort;;
     emit (LoggerInfo "Snapmaker J1 discovering stopped." [])) st1.
Proof. unfold stop. unfold_M. by destruct (timer_active st). Qed.

Lemma stop_timer_off st : timer_active (stop st).2 = false.
Proof.
  rewrite stop_unfold.
  match goal with
  | |- timer_active (?m ?s).2 = _ =>
      pose proof (abort_loop_keeps (discover_sockets s) s) as H
  end.
  unfold keeps in H. injection H as -> _.
  by destruct (timer_active st) eqn:Hactive.
Qed.

Lemma start_timer_on st : timer_active (start st).2 = true.
Proof. unfold start. unfold_M. by destruct (timer_active st) eqn:Hactive. Qed.

(** X6: whether [stop()] returns or raises, the timer is stopped when it
    is left, and no tick starts a round until the timer is started again. *)
Theorem stop_stops_timer w st :
  timer_active (stop st).2 = false
  ∧ timeout w (stop st).2 = (Ok (), (stop st).2).
Proof.
  split; [apply stop_timer_off|].
  unfold timeout. unfold_M. by rewrite stop_timer_off.
Qed.

(** X7: the handler of the change of the active machine leaves the timer
    running exactly when the machine is [MACHINE_NAME]: it starts the
    discovery then, and stops it for every other machine, even where
    [stop()] raises. *)
Theorem machine_change_sets_timer MACHINE_NAME (machine_name : list N) st :
  timer_active (_onGlobalContainerStackChanged MACHINE_NAME machine_name st).2
  = bool_decide (machine_name = MACHINE_NAME).
Proof.
  unfold _onGlobalContainerStackChanged. case_bool_decide as Hname.
  - rewrite decide_True by done. apply start_timer_on.
  - rewrite decide_False by done. apply stop_timer_off.
Qed.

(** X8: in a reachable state [stop()] returns normally exactly when there
    is no channel; with a channel it raises [AttributeError]. *)
Theorem stop_completes_iff_no_channel MACHINE_NAME w st :
  reachable MACHINE_NAME w st →
  ((stop st).1 = Ok () ↔ discover_sockets st = [])
  ∧ ((stop st).1 = Raise AttributeError ↔ discover_sockets st ≠ []).
Proof.
  intros Hreach.
  pose proof (channels_ok_tuples st (reachable_channels_ok _ _ _ Hreach)) as Ht.
  rewrite stop_with_tuples by done.
  destruct (discover_sockets st) eqn:E; simpl; split; split; done.
Qed.

Lemma stop_completes_iff_no_channel_witness :
  (stop (__init__ home_host)).1 = Ok ()
  ∧ (stop (discovering (u "Snapmaker J1") false)).1 = Raise AttributeError.
Proof.
  split.
  - apply (stop_completes_iff_no_channel (u "Snapmaker J1") false
             (__init__ home_host) (reachable_init _ _ _)).
    reflexivity.
  - apply (stop_completes_iff_no_channel (u "Snapmaker J1") false
             (discovering (u "Snapmaker J1") false)
             (reachable_step _ _ _ DoTimeout
                (reachable_step _ _ _ DoStart (reachable_init _ _ home_host)))).
    vm_compute. discriminate.
Defined.

(** X9: once the plugin has a channel, its list of channels never changes
    again: no call and no signal adds, removes or replaces a channel, so that
    a change of the network interfaces is never taken up. *)
Theorem channels_never_rebuilt MACHINE_NAME w st a :
  reachable MACHINE_NAME w st →
  discover_sockets st ≠ [] →
  discover_sockets (exec MACHINE_NAME w st a) = discover_sockets st.
Proof.
  intros Hreach Hsocks.
  pose proof (reachable_channels_ok _ _ _ Hreach) as Hok.
  pose proof (channels_ok_tuples st Hok) as Ht.
  assert (discover_sockets (__discover w st).2 = discover_sockets st) as Hround.
  { destruct (discover_round w st Ht) as (st_mid & probes & Hmid & -> & _).
    rewrite decide_False in Hmid by done. by subst. }
  unfold exec. destruct a; simpl.
  - apply start_same_channels.
  - apply stop_keeps_discover_sockets.
  - done.
  - unfold timeout. unfold_M. by destruct (timer_active st).
  - apply readyRead_same_channels.
  - unfold _onGlobalContainerStackChanged. case_decide.
    + apply start_same_channels.
    + apply stop_keeps_discover_sockets.
  - done.
  - done.
Qed.

Lemma channels_never_rebuilt_witness :
  let st := exec (u "Snapmaker J1") false (discovering (u "Snapmaker J1") false)
              (EnvInterfaces office_host) in
  discover_sockets (exec (u "Snapmaker J1") false st DoStartDiscovery)
  = discover_sockets st.
Proof.
  intros st.
  apply (channels_never_rebuilt (u "Snapmaker J1") false st DoStartDiscovery).
  - exact (reachable_step _ _ _ (EnvInterfaces office_host)
             (discovering_reachable _ _)).
  - vm_compute. discriminate.
Defined.

(** X10: a discovery round, be it a tick of the timer or a call of
    [startDiscovery()], changes neither the state of the timer nor the
    registry: a scan asked for by hand works while the timer is stopped and
    does not start it. *)
Theorem round_keeps_timer_and_registry w st :
  timer_active (startDiscovery w st).2 = timer_active st
  ∧ output_devices (startDiscovery w st).2 = output_devices st
  ∧ timer_active (timeout w st).2 = timer_active st
  ∧ output_devices (timeout w st).2 = output_devices st.
Proof.
  pose proof (discover_keeps w st) as H. unfold keeps in H.
  injection H as H1 H2 _. unfold startDiscovery, timeout. unfold_M.
  destruct (timer_active st) eqn:Hactive; simpl; rewrite ?H1, ?H2; done.
Qed.

(** ** The registry *)

Lemma register_grows adv : preserves registry_grows (register adv).
Proof.
  intros st. unfold registry_grows.
  destruct (output_devices st !! device_id adv) as [d|] eqn:Hd.
  - by rewrite (register_known adv d st Hd).
  - rewrite (register_unknown adv st Hd). simpl. by apply insert_subseteq.
Qed.

Lemma parseMessage_grows MACHINE_NAME ip msg :
  preserves registry_grows (__parseMessage MACHINE_NAME ip msg).
Proof.
  unfold __parseMessage. preserves_tac; try apply register_grows.
Qed.

Lemma drain_grows MACHINE_NAME socket pending :
  preserves registry_grows (drain MACHINE_NAME socket pending).
Proof.
  induction pending as [|datagram rest IH]; simpl.
  - preserves_tac.
  - unfold set_pending, update_socket.
    preserves_tac; try apply parseMessage_grows; try apply IH.
    unfold registry_grows. done.
Qed.

Lemma keeps_registry_grows {A} (m : M A) {B} (f : State → B) :
  (∀ st st', f st' = f st → output_devices st' = output_devices st) →
  preserves (keeps f) m → preserves registry_grows m.
Proof.
  intros Hf Hm st. unfold registry_grows. by rewrite (Hf _ _ (Hm st)).
Qed.

Lemma exec_grows MACHINE_NAME w a :
  preserves registry_grows (run MACHINE_NAME w a).
Proof.
  destruct a; simpl.
  - eapply keeps_registry_grows; [|apply start_keeps]. by intros ?? [= _ _ _ ? _].
  - eapply keeps_registry_grows; [|apply stop_keeps]. by intros ?? [= _ _ ? _ _].
  - eapply keeps_registry_grows; [|apply discover_keeps]. by intros ?? [= _ ? _].
  - unfold timeout. preserves_tac.
    eapply keeps_registry_grows; [|apply discover_keeps]. by intros ?? [= _ ? _].
  - unfold readyRead_emit, _readSocket. preserves_tac. apply drain_grows.
  - unfold _onGlobalContainerStackChanged. case_decide.
    + eapply keeps_registry_grows; [|apply start_keeps].
      by intros ?? [= _ _ _ ? _].
    + eapply keeps_registry_grows; [|apply stop_keeps].
      by intros ?? [= _ _ ? _ _].
  - preserves_tac. unfold registry_grows. done.
  - unfold update_socket. preserves_tac. unfold registry_grows. done.
Qed.

(** X11: the registry only grows.  Whatever the plugin does and receives,
    every record of the registry stays where it is, with the content it had
    when it was registered. *)
Theorem registry_only_grows MACHINE_NAME w st (actions : list Action) :
  output_devices st ⊆ output_devices (exec_all MACHINE_NAME w st actions).
Proof.
  unfold exec_all. revert st.
  induction actions as [|a actions IH]; intros st; simpl; [done|].
  etrans; [apply (exec_grows MACHINE_NAME w a st)|apply IH].
Qed.

Lemma parse_fields_id (msg : list N) adv :
  parse_fields msg = Ok (Some adv) →
  device_id adv = name adv ++ chr "@" :: address adv
  ∧ (chr "@" ∉ name adv) ∧ (chr "@" ∉ address adv).
Proof.
  unfold parse_fields.
  destruct (split (chr "|") msg) as [|part0 rest]; [done|].
  case_decide; [|done].
  destruct (split (chr "@") part0) as [|x [|y [|z l]]] eqn:Hs; try done.
  destruct (parse_properties rest ∅) as [props|e]; [|done].
  intros [= <-]. simpl. by apply split_two.
Qed.

Lemma adds_accepted_preorder MACHINE_NAME : PreOrder (adds_accepted MACHINE_NAME).
Proof.
  split.
  - intros st key device H. by left.
  - intros st1 st2 st3 H1 H2 key device H.
    destruct (H2 key device H) as [H'|H']; [by apply H1|by right].
Qed.

#[global] Existing Instance adds_accepted_preorder.

Lemma parseMessage_adds_accepted MACHINE_NAME ip msg :
  preserves (adds_accepted MACHINE_NAME) (__parseMessage MACHINE_NAME ip msg).
Proof.
  intros st key device. unfold __parseMessage. unfold_M.
  destruct (parse_fields msg) as [[adv|]|e] eqn:Hparse; simpl; try by left.
  case_decide as Hmodel; simpl; [by left|].
  destruct (output_devices st !! device_id adv) as [d|] eqn:Hd.
  - rewrite (register_known adv d st Hd). simpl. by left.
  - rewrite (register_unknown adv st Hd). simpl.
    intros [[<- <-]|[_ Hold]]%lookup_insert_Some; [|by left].
    right. destruct (parse_fields_id msg adv Hparse) as (Hid & ? & ?).
    split_and!; simpl; [done| |by exists (name adv)].
    by destruct (decide (properties adv !! u "model" = Some MACHINE_NAME)).
Qed.

Lemma drain_adds_accepted MACHINE_NAME socket pending :
  preserves (adds_accepted MACHINE_NAME) (drain MACHINE_NAME socket pending).
Proof.
  induction pending as [|datagram rest IH]; simpl.
  - preserves_tac.
  - unfold set_pending, update_socket.
    preserves_tac; try apply parseMessage_adds_accepted; try apply IH.
    intros key device H. by left.
Qed.

Lemma keeps_adds_accepted MACHINE_NAME {A} (m : M A) {B} (f : State → B) :
  (∀ st st', f st' = f st → output_devices st' = output_devices st) →
  preserves (keeps f) m → preserves (adds_accepted MACHINE_NAME) m.
Proof.
  intros Hf Hm st key device. rewrite (Hf _ _ (Hm st)). by left.
Qed.

Lemma exec_adds_accepted MACHINE_NAME w a :
  preserves (adds_accepted MACHINE_NAME) (run MACHINE_NAME w a).
Proof.
  destruct a; simpl.
  - eapply keeps_adds_accepted; [|apply start_keeps].
    by intros ?? [= _ _ _ ? _].
  - eapply keeps_adds_accepted; [|apply stop_keeps].
    by intros ?? [= _ _ ? _ _].
  - eapply keeps_adds_accepted; [|apply discover_keeps].
    by intros ?? [= _ ? _].
  - unfold timeout. preserves_tac.
    eapply keeps_adds_accepted; [|apply discover_keeps].
    by intros ?? [= _ ? _].
  - unfold readyRead_emit, _readSocket. preserves_tac.
    apply drain_adds_accepted.
  - unfold _onGlobalContainerStackChanged. case_decide.
    + eapply keeps_adds_accepted; [|apply start_keeps].
      by intros ?? [= _ _ _ ? _].
    + eapply keeps_adds_accepted; [|apply stop_keeps].
      by intros ?? [= _ _ ? _ _].
  - preserves_tac. intros key device H. by left.
  - unfold update_socket. preserves_tac. intros key device H. by left.
Qed.

(** X12: the records that the plugin adds to the registry are those of
    accepted advertisements.  Whatever the registry holds to begin with,
    after any sequence of actions of the plugin a record of the registry
    either was there before, unchanged, or is stored under its own id, has
    the ["model"] [MACHINE_NAME], and has an id that reads [name@address]
    with the address of the record and no other ["@"]. *)
Theorem registry_records_accepted MACHINE_NAME w st (actions : list Action)
    (key : list N) device :
  output_devices (exec_all MACHINE_NAME w st actions) !! key = Some device →
  output_devices st !! key = Some device
  ∨ record_ok MACHINE_NAME key device.
Proof.
  assert (∀ actions st,
            adds_accepted MACHINE_NAME st (exec_all MACHINE_NAME w st actions))
    as Hall; [|apply Hall].
  clear. intros actions. unfold exec_all.
  induction actions as [|a actions IH]; intros st; simpl; [reflexivity|].
  etrans; [apply (exec_adds_accepted MACHINE_NAME w a st)|apply IH].
Qed.

Lemma registry_records_accepted_witness :
  let reply := {| isValid := true; senderAddress := ipv4 "192.168.1.77";
                  data := b "J1 lab@192.168.1.77|model:Snapmaker J1|status:IDLE" |} in
  let other := {| getId := u "octoprint"; dev_address := u "192.168.1.20";
                  dev_properties := ∅ |} in
  let st := set_output_devices {[ u "octoprint" := other ]} (__init__ home_host) in
  let st' := exec_all (u "Snapmaker J1") false st
               [DoStart; DoTimeout; EnvDatagram 0 reply; DoReadyRead 0] in
  size (output_devices st') = 2%nat
  ∧ output_devices st' !! u "octoprint" = Some other
  ∧ ∃ device,
      output_devices st' !! u "J1 lab@192.168.1.77" = Some device
      ∧ record_ok (u "Snapmaker J1") (u "J1 lab@192.168.1.77") device.
Proof.
  intros reply other st st'.
  split; [vm_compute; reflexivity|]. split; [vm_compute; reflexivity|].
  eexists. split; [vm_compute; reflexivity|].
  destruct (registry_records_accepted (u "Snapmaker J1") false st
              [DoStart; DoTimeout; EnvDatagram 0 reply; DoReadyRead 0]
              (u "J1 lab@192.168.1.77") _ eq_refl) as [Hold|Hok].
  - vm_compute in Hold. discriminate Hold.
  - exact Hok.
Defined.

(** ** What the plugin never does *)

Ltac appends_leaf :=
  unfold preserves; intros; unfold appends; cbn [snd trace set_trace];
  first
    [ by exists []; rewrite app_nil_r
    | eexists [_]; split; [reflexivity|];
      repeat constructor; by intros [] ].

Lemma prepare_no_abort w :
  preserves (appends (λ ev, ¬ is_abort ev)) (__prepare w).
Proof. unfold __prepare, prepare_entry. preserves_ops; try done; appends_leaf. Qed.

Lemma discover_no_abort w :
  preserves (appends (λ ev, ¬ is_abort ev)) (__discover w).
Proof.
  unfold __discover. preserves_ops; try apply prepare_no_abort; try done;
    appends_leaf.
Qed.

Lemma drain_no_abort MACHINE_NAME socket pending :
  preserves (appends (λ ev, ¬ is_abort ev)) (drain MACHINE_NAME socket pending).
Proof.
  induction pending as [|datagram rest IH]; simpl.
  - preserves_tac.
  - unfold __parseMessage, register.
    preserves_ops; try apply IH; try done; appends_leaf.
Qed.

Lemma start_no_abort : preserves (appends (λ ev, ¬ is_abort ev)) start.
Proof. unfold start. preserves_ops; try done; appends_leaf. Qed.

Lemma stop_no_abort st :
  Forall is_tuple (discover_sockets st) →
  appends (λ ev, ¬ is_abort ev) st (stop st).2.
Proof.
  intros Ht. rewrite stop_with_tuples by done. unfold appends.
  destruct (discover_sockets st), (timer_active st); simpl.
  - eexists. rewrite <- (assoc_L (++)). split; [done|].
    repeat constructor; by intros [].
  - eexists [_]. split; [done|]. repeat constructor; by intros [].
  - eexists [_]. split; [done|]. repeat constructor; by intros [].
  - exists []. by rewrite app_nil_r.
Qed.

Lemma timeout_no_abort w : preserves (appends (λ ev, ¬ is_abort ev)) (timeout w).
Proof. unfold timeout. preserves_tac. apply discover_no_abort. Qed.

Lemma readyRead_no_abort MACHINE_NAME socket :
  preserves (appends (λ ev, ¬ is_abort ev)) (readyRead_emit MACHINE_NAME socket).
Proof.
  unfold readyRead_emit, _readSocket. preserves_tac. apply drain_no_abort.
Qed.

(** X13: no socket is ever aborted.  In no reachable state does the trace
    hold a call of [abort]: the sockets that [__prepare] has made stay open
    through [stop()], through a change of machine and through the shutdown
    of the application. *)
Theorem no_socket_aborted MACHINE_NAME w st :
  reachable MACHINE_NAME w st →
  Forall (λ ev, ¬ is_abort ev) (trace st).
Proof.
  induction 1 as [interfaces|st a Hreach IH|st devices _ IH|st ok _ IH];
    [constructor| |done|done].
  pose proof (channels_ok_tuples st (reachable_channels_ok _ _ _ Hreach)) as Ht.
  assert (appends (λ ev, ¬ is_abort ev) st (exec MACHINE_NAME w st a))
    as (evs & -> & Hevs); [|by apply Forall_app].
  unfold exec. destruct a; simpl.
  - apply start_no_abort.
  - by apply stop_no_abort.
  - apply discover_no_abort.
  - apply timeout_no_abort.
  - apply readyRead_no_abort.
  - unfold _onGlobalContainerStackChanged. case_decide.
    + apply start_no_abort.
    + by apply stop_no_abort.
  - exists []. by rewrite app_nil_r.
  - exists []. by rewrite app_nil_r.
Qed.

Lemma no_socket_aborted_witness :
  let st := exec_all (u "Snapmaker J1") false (__init__ home_host)
              [DoStart; DoTimeout; DoStop;
               DoGlobalContainerStackChanged (u "Ultimaker S5"); DoStop] in
  Forall (λ ev, ¬ is_abort ev) (trace st).
Proof.
  intros st. apply (no_socket_aborted (u "Snapmaker J1") false).
  unfold st, exec_all. simpl foldl. do 5 apply reachable_step.
  apply reachable_init.
Defined.

(** ** Draining a socket, continued *)

Lemma parse_fields_exn (msg : list N) e :
  parse_fields msg = Raise e → e = ValueError.
Proof.
  unfold parse_fields.
  destruct (split (chr "|") msg) as [|part0 rest]; [done|].
  case_decide; [|done].
  destruct (split (chr "@") part0) as [|x [|y [|z l]]];
    try by intros [= <-].
  destruct (parse_properties rest ∅) eqn:Hprops; [done|].
  intros [= <-]. by apply (parse_properties_outcome rest ∅).
Qed.

Lemma parseMessage_outcome MACHINE_NAME ip msg st :
  (__parseMessage MACHINE_NAME ip msg st).1
  = match parse_fields msg with Ok _ => Ok () | Raise _ => Raise ValueError end.
Proof.
  unfold __parseMessage. unfold_M.
  destruct (parse_fields msg) as [[adv|]|e] eqn:Hparse; simpl; try done.
  - case_decide; [done|].
    destruct (output_devices st !! device_id adv) as [d|] eqn:Hd.
    + by rewrite (register_known adv d st Hd).
    + by rewrite (register_unknown adv st Hd).
  - by rewrite (parse_fields_exn msg e Hparse).
Qed.

(** One turn of the loop of [_readSocket]: the datagram is taken off the
    socket; the loop goes on unless its parse raises. *)
Lemma drain_cons MACHINE_NAME socket datagram rest st :
  ∃ st1,
    heap st1 = heap (received socket rest st)
    ∧ drain MACHINE_NAME socket (datagram :: rest) st
      = if raises_in_parse datagram then (Raise ValueError, st1)
        else drain MACHINE_NAME socket rest st1.
Proof.
  simpl. unfold received, set_pending, try_except_pass, raises_in_parse, decode.
  unfold_M. simpl. set (st0 := set_heap _ st).
  destruct (isValid datagram && negb (isNull (senderAddress datagram))); simpl;
    [|by exists st0].
  destruct (utf8_decode (data datagram)) as [msg|]; simpl; [|by exists st0].
  pose proof (parseMessage_outcome MACHINE_NAME
                (toString (senderAddress datagram)) msg st0) as Hout.
  pose proof (parseMessage_keeps MACHINE_NAME
                (toString (senderAddress datagram)) msg st0) as Hkeep.
  unfold keeps in Hkeep. injection Hkeep as _ _ Hheap _ _.
  destruct (__parseMessage MACHINE_NAME _ msg st0) as [o st1]. simpl in *.
  exists st1. split; [done|]. subst o.
  by destruct (parse_fields msg).
Qed.

(** X14: [_readSocket] returns normally exactly when no pending datagram
    makes the parse raise; otherwise it raises [ValueError], and never
    anything else: [UnicodeDecodeError] does not leave it. *)
Theorem drain_outcome MACHINE_NAME socket (pending : list QNetworkDatagram) st :
  (drain MACHINE_NAME socket pending st).1
  = (if forallb (λ datagram, negb (raises_in_parse datagram)) pending
     then Ok () else Raise ValueError)
  ∧ (_readSocket MACHINE_NAME socket st).1
    = (if forallb (λ datagram, negb (raises_in_parse datagram))
                  (pending_of socket st)
       then Ok () else Raise ValueError).
Proof.
  assert (∀ pending st,
            (drain MACHINE_NAME socket pending st).1
            = if forallb (λ datagram, negb (raises_in_parse datagram)) pending
              then Ok () else Raise ValueError) as Hdrain.
  { clear. intros pending.
    induction pending as [|datagram rest IH]; intros st; [done|].
    destruct (drain_cons MACHINE_NAME socket datagram rest st)
      as (st1 & _ & ->).
    cbn [forallb]. destruct (raises_in_parse datagram); simpl; [done|apply IH]. }
  split; [apply Hdrain|]. unfold _readSocket. unfold_M. apply Hdrain.
Qed.

Lemma pending_of_received socket rest st :
  (socket < length (heap st))%nat →
  pending_of socket (received socket rest st) = rest.
Proof.
  intros Hs. unfold pending_of, received, set_pending. unfold_M. simpl.
  rewrite list_lookup_alter, decide_True by done.
  destruct (lookup_lt_is_Some_2 (heap st) socket Hs) as [x ->]. done.
Qed.

(** X15: what a drain leaves on the socket.  When the loop returns normally
    nothing is left pending; when the parse raises, the datagram that made it
    raise is gone and those behind it are still pending. *)
Theorem drain_leaves_pending MACHINE_NAME socket (pending : list QNetworkDatagram) st :
  (socket < length (heap st))%nat →
  pending ≠ [] →
  pending_of socket (drain MACHINE_NAME socket pending st).2
  = after_first_raise pending.
Proof.
  intros Hs Hne. revert st Hs.
  induction pending as [|datagram rest IH]; intros st Hs; [done|].
  destruct (drain_cons MACHINE_NAME socket datagram rest st)
    as (st1 & Hheap & ->).
  assert (pending_of socket st1 = rest) as Hrest.
  { unfold pending_of. rewrite Hheap. by apply pending_of_received. }
  assert (socket < length (heap st1))%nat as Hs1.
  { rewrite Hheap. unfold received, set_pending. unfold_M. simpl.
    by rewrite length_alter. }
  cbn [after_first_raise]. destruct (raises_in_parse datagram); [done|].
  destruct rest as [|datagram' rest']; [done|]. by apply IH.
Qed.

Lemma drain_leaves_pending_witness :
  let sender := ipv4 "192.168.1.77" in
  let good := {| isValid := true; senderAddress := sender;
                 data := b "J1@192.168.1.77|model:Snapmaker J1" |} in
  let bad := {| isValid := true; senderAddress := sender;
                data := b "J1@192.168.1.78|time:12:30" |} in
  let st := exec_all (u "Snapmaker J1") false (__init__ home_host)
              [DoStartDiscovery; EnvDatagram 0 good; EnvDatagram 0 bad;
               EnvDatagram 0 good] in
  pending_of 0 (drain (u "Snapmaker J1") 0 [good; bad; good] st).2 = [good]
  ∧ pending_of 0 (drain (u "Snapmaker J1") 0 [good; good] st).2 = [].
Proof.
  intros sender good bad st. split.
  - apply (drain_leaves_pending (u "Snapmaker J1") 0%nat [good; bad; good] st);
      [vm_compute; lia|done].
  - apply (drain_leaves_pending (u "Snapmaker J1") 0%nat [good; good] st);
      [vm_compute; lia|done].
Defined.

(** X16: a datagram that the transport marks invalid, or that has no sender
    address, is taken off the socket and dropped: it is neither decoded nor
    parsed, and the loop goes on with the next one. *)
Theorem invalid_datagram_dropped MACHINE_NAME socket datagram rest st :
  isValid datagram = false ∨ isNull (senderAddress datagram) = true →
  drain MACHINE_NAME socket (datagram :: rest) st
  = drain MACHINE_NAME socket rest (received socket rest st).
Proof.
  intros Hdrop. simpl. unfold received, set_pending. unfold_M. simpl.
  by destruct Hdrop as [-> | ->]; rewrite ?andb_false_r.
Qed.

Lemma invalid_datagram_dropped_witness :
  let reply := {| isValid := false; senderAddress := ipv4 "192.168.1.77";
                  data := b "J1@192.168.1.77|model:Snapmaker J1" |} in
  let st := exec_all (u "Snapmaker J1") false (__init__ home_host)
              [DoStartDiscovery; EnvDatagram 0 reply] in
  drain (u "Snapmaker J1") 0 [reply] st = (Ok (), received 0 [] st).
Proof.
  intros reply st.
  apply (invalid_datagram_dropped (u "Snapmaker J1") 0%nat reply [] st).
  by left.
Defined.

(** X17: a reply that is accepted is registered.  For a valid datagram whose
    message parses, with the ["model"] of the plugin and an id that the
    registry does not hold, [_readSocket] looks the id up once and adds one
    record: its id is the first segment of the message and its address the
    one written in the message, not the address of the sender. *)
Theorem accepted_reply_registered MACHINE_NAME socket datagram msg adv st :
  isValid datagram = true →
  isNull (senderAddress datagram) = false →
  utf8_decode (data datagram) = Some msg →
  parse_fields msg = Ok (Some adv) →
  properties adv !! u "model" = Some MACHINE_NAME →
  output_devices st !! device_id adv = None →
  ∃ st',
    drain MACHINE_NAME socket [datagram] st = (Ok (), st')
    ∧ output_devices st'
      = <[device_id adv := {| getId := header msg; dev_address := address adv;
                              dev_properties := properties adv |}]>
          (output_devices st)
    ∧ trace st'
      = trace st ++ [GetOutputDevice (device_id adv);
                     LoggerInfo "Discovered Snapmaker J1: %s@%s"
                                [name adv; address adv];
                     AddOutputDevice (device_of adv)].
Proof.
  intros Hvalid Hsender Hbytes Hparse Hmodel Hnew.
  assert (device_id adv = header msg) as Hid.
  { unfold header. unfold parse_fields in Hparse.
    destruct (split (chr "|") msg) as [|part0 rest]; [done|].
    case_decide; [|done].
    destruct (split (chr "@") part0) as [|x [|y [|z l]]]; try done.
    destruct (parse_properties rest ∅); [|done]. by injection Hparse as <-. }
  simpl. unfold set_pending, try_except_pass, decode. unfold_M. simpl.
  rewrite Hvalid, Hsender, Hbytes. simpl.
  set (st0 := set_heap _ st).
  pose proof (parseMessage_accepted MACHINE_NAME
                (toString (senderAddress datagram)) msg adv st0 Hparse Hmodel)
    as Hrun.
  unfold mbind, M_bind, lift in Hrun. rewrite Hrun.
  rewrite (register_unknown adv st0) by done. simpl.
  eexists. split; [reflexivity|]. simpl. unfold device_of. by rewrite Hid.
Qed.

Lemma accepted_reply_registered_witness :
  let reply := {| isValid := true; senderAddress := ipv4 "192.168.1.77";
                  data := b "J1 lab@10.9.8.7|model:Snapmaker J1|status:IDLE" |} in
  let st := exec_all (u "Snapmaker J1") false (__init__ home_host)
              [DoStartDiscovery; EnvDatagram 0 reply] in
  ∃ st',
    drain (u "Snapmaker J1") 0 [reply] st = (Ok (), st')
    ∧ output_devices st'
      = {[ u "J1 lab@10.9.8.7" :=
             {| getId := u "J1 lab@10.9.8.7"; dev_address := u "10.9.8.7";
                dev_properties := {[ u "model" := u "Snapmaker J1";
                                     u "status" := u "IDLE" ]} |} ]}.
Proof.
  intros reply st.
  destruct (accepted_reply_registered (u "Snapmaker J1") 0%nat reply
              (u "J1 lab@10.9.8.7|model:Snapmaker J1|status:IDLE")
              {| device_id := u "J1 lab@10.9.8.7"; name := u "J1 lab";
                 address := u "10.9.8.7";
                 properties := {[ u "model" := u "Snapmaker J1";
                                  u "status" := u "IDLE" ]} |} st)
    as (st' & Hrun & Hreg & _); try (vm_compute; reflexivity).
  exists st'. split; [exact Hrun|]. rewrite Hreg. vm_compute. reflexivity.
Defined.

(** ** Building the channels, continued *)

(** X18: the calls of [bind] that [__prepare] makes.  For the [i]-th kept
    address entry it creates one socket and calls [bind] on it once, with the
    address of the entry and, on Windows, the port [20054 + i] (so that the
    ports of one call are pairwise distinct and start at the discovery port),
    elsewhere without a port.  It does not look at the result: where [bind]
    succeeds the socket is bound to that address and port, where it fails
    the socket is left unbound, and the channel is made in both cases.
    Sockets that existed before are left as they were. *)
Theorem prepare_binds_sockets (w : bool) (st : State) :
  let es := qualifying_entries (interfaces st) in
  let port (i : nat) := if w then Some (20054 + N.of_nat i) else None in
  ∃ st',
    __prepare w st = (Ok (), st')
    ∧ trace st'
      = trace st
        ++ AllInterfaces
           :: mjoin (imap (λ i e,
                [LoggerInfo "Discovering printers on network interface: %s"
                            [toString (ip e)];
                 Bind (length (heap st) + i) (ip e) (port i)]) es)
    ∧ discover_sockets st' = imap (λ i e, PyTuple (length (heap st) + i) e) es
    ∧ length (heap st') = (length (heap st) + length es)%nat
    ∧ (∀ i e, es !! i = Some e →
         heap st' !! (length (heap st) + i)%nat
         = Some (if bind_succeeds st (length (heap st) + i)%nat (ip e) (port i)
                 then {| localAddress := Some (ip e); localPort := port i;
                         pendingDatagrams := [];
                         readyRead := Some (length (cells st)) |}
                 else {| localAddress := None; localPort := None;
                         pendingDatagrams := [];
                         readyRead := Some (length (cells st)) |}))
    ∧ (∀ socket, (socket < length (heap st))%nat →
         heap st' !! socket = heap st !! socket).
Proof.
  intros es port.
  destruct (prepare_channels w st) as (st' & Hrun & [Hs Hh Ht _ _ _ _]).
  simpl in Hs, Hh, Ht. exists st'. split; [done|]. split_and!.
  - rewrite Ht, <- (assoc_L (++)). done.
  - done.
  - by rewrite Hh, length_app, length_imap.
  - intros i e He. rewrite Hh, lookup_app_r by lia.
    replace (length (heap st) + i - length (heap st))%nat with i by lia.
    fold es. rewrite list_lookup_imap, He. done.
  - intros socket Hsock. by rewrite Hh, lookup_app_l.
Qed.

(** X19: a round that finds no channel enumerates the interfaces anew and
    makes one channel for each entry that it keeps.  On a host without any
    such entry it writes no datagram and leaves the list empty, so that the
    following round enumerates again. *)
Theorem round_without_channels w st :
  discover_sockets st = [] →
  ∃ st' probes,
    __discover w st = (Ok (), st')
    ∧ discover_sockets st'
      = imap (λ i e, PyTuple (length (heap st) + i) e)
             (qualifying_entries (interfaces st))
    ∧ trace st'
      = trace st
        ++ AllInterfaces
           :: mjoin (imap (prepare_events w (length (heap st)) 20054)
                          (qualifying_entries (interfaces st)))
        ++ probes
    ∧ length probes = length (qualifying_entries (interfaces st))
    ∧ Forall is_write probes.
Proof.
  intros Hempty.
  destruct (discover_round w st) as (st_mid & probes & Hmid & Hrun & Hprobes);
    [by rewrite Hempty|].
  rewrite decide_True in Hmid by done.
  destruct (prepare_channels w st) as (st'' & Hprep & [Hs _ Ht _ _ _]).
  rewrite Hprep in Hmid. injection Hmid as ->. simpl in Hs, Ht.
  eexists _, probes. split; [exact Hrun|]. simpl. split_and!.
  - done.
  - rewrite Ht. by rewrite <- !(assoc_L (++)).
  - rewrite <- (Forall2_length _ _ _ Hprobes), Hs. apply length_imap.
  - apply Forall_forall. intros ev Hev.
    apply list_elem_of_lookup in Hev as [i Hi].
    destruct (Forall2_lookup_r _ _ _ _ _ Hprobes Hi) as (obj & _ & Hobj).
    destruct obj; simpl in Hobj; [done|]. by injection Hobj as <-.
Qed.

Lemma round_without_channels_witness :
  let st := __init__ [ {| addressEntries := [localhost; link_local6] |} ] in
  ∃ st' probes,
    __discover true st = (Ok (), st')
    ∧ discover_sockets st' = []
    ∧ trace st' = trace st ++ AllInterfaces :: [] ++ probes
    ∧ length probes = 0%nat.
Proof.
  intros st.
  destruct (round_without_channels true st eq_refl)
    as (st' & probes & Hrun & Hs & Ht & Hlen & _).
  exists st', probes. split_and!; [exact Hrun|exact Hs|exact Ht|exact Hlen].
Defined.

(** ** The closures connected to [readyRead], in general *)

Lemma prepare_entry_keep_cells w cell port e st :
  qualifies e →
  cells (prepare_entry w cell port e st).2
  = <[cell := Some (length (heap st))]> (cells st).
Proof.
  unfold qualifies, prepare_entry. intros [Hl Hp]. rewrite Hl.
  rewrite decide_False by (by intros []).
  unfold QUdpSocket_new, bind, readyRead_connect. unfold_M.
  destruct w; simpl; by destruct (bind_succeeds st _ (ip e) _).
Qed.

Lemma prepare_entries_cells w cell (es : list QNetworkAddressEntry) port st :
  cells (for_fold es (prepare_entry w cell) port st).2
  = match length (filter qualifies es) with
    | O => cells st
    | S n => <[cell := Some (length (heap st) + n)%nat]> (cells st)
    end.
Proof.
  revert port st. induction es as [|e es IH]; intros port st; [done|].
  rewrite filter_cons. simpl. unfold mbind, M_bind.
  destruct (decide (qualifies e)) as [Hq|Hq].
  - pose proof (prepare_entry_keep_cells w cell port e st Hq) as Hcells.
    destruct (prepare_entry_keep w cell port e st Hq) as (st1 & Hrun & H1).
    rewrite Hrun in Hcells |- *. simpl in Hcells. rewrite IH, Hcells.
    rewrite (added_heap _ _ _ _ _ _ H1), length_app. simpl.
    destruct (length (filter qualifies es)) as [|n].
    + by rewrite Nat.add_0_r.
    + rewrite list_insert_insert_eq.
      by replace (length (heap st) + 1 + n)%nat
        with (length (heap st) + S n)%nat by lia.
  - rewrite prepare_entry_skip by done. apply IH.
Qed.

Lemma prepare_interfaces_cells w cell (all : list QNetworkInterface) port st :
  cells (for_fold all (λ available_port interface,
           for_fold (addressEntries interface) (prepare_entry w cell)
                    available_port) port st).2
  = match length (qualifying_entries all) with
    | O => cells st
    | S n => <[cell := Some (length (heap st) + n)%nat]> (cells st)
    end.
Proof.
  unfold qualifying_entries. revert port st.
  induction all as [|interface all IH]; intros port st; [done|].
  rewrite bind_cons, filter_app, length_app. simpl.
  unfold mbind at 1, M_bind at 1.
  pose proof (prepare_entries_cells w cell (addressEntries interface) port st)
    as Hcells.
  destruct (prepare_entries w cell (addressEntries interface) port st)
    as (st1 & Hrun & H1).
  rewrite Hrun in Hcells |- *. simpl in Hcells. rewrite IH, Hcells.
  rewrite (added_heap _ _ _ _ _ _ H1), length_app, length_imap.
  destruct (length (filter qualifies (addressEntries interface))) as [|n],
    (length (filter qualifies (all ≫= addressEntries))) as [|m]; simpl.
  - done.
  - by rewrite Nat.add_0_r.
  - by rewrite Nat.add_0_r.
  - rewrite list_insert_insert_eq.
    by replace (length (heap st) + S n + m)%nat
      with (length (heap st) + (n + S m))%nat by lia.
Qed.

(** X20: the closures that one call of [__prepare] connects to [readyRead]
    all read the same variable, which holds the last socket of that call.
    When data is ready on any of the new sockets the plugin drains the last
    one: a reply that arrives on another interface is not read. *)
Theorem closures_drain_last_socket MACHINE_NAME w st :
  let n := length (qualifying_entries (interfaces st)) in
  ∃ st',
    __prepare w st = (Ok (), st')
    ∧ ∀ i, (i < n)%nat →
        readyRead_emit MACHINE_NAME (length (heap st) + i) st'
        = _readSocket MACHINE_NAME (length (heap st) + n - 1) st'.
Proof.
  intros n. destruct (prepare_channels w st) as (st' & Hrun & [_ Hh _ _ _ _ _]).
  exists st'. split; [done|]. intros i Hi.
  assert (cells st' = cells st ++ [Some (length (heap st) + n - 1)%nat])
    as Hcells.
  { replace st' with (__prepare w st).2 by by rewrite Hrun.
    unfold __prepare. unfold_M. simpl.
    match goal with
    | |- context [for_fold ?l ?f ?p ?s] =>
        pose proof (prepare_interfaces_cells w (length (cells st)) l p s) as Hc;
        destruct (for_fold l f p s) as [[p'|e'] st'']
    end; simpl in Hc |- *; rewrite Hc; fold n;
      (destruct n as [|m]; [lia|]);
      rewrite <- (Nat.add_0_r (length (cells st))) at 1;
      rewrite insert_app_r; simpl;
      by replace (length (heap st) + m)%nat
        with (length (heap st) + S m - 1)%nat by lia. }
  simpl in Hh. unfold readyRead_emit. unfold_M.
  destruct (lookup_lt_is_Some_2 (qualifying_entries (interfaces st)) i Hi)
    as [e He].
  rewrite Hh, lookup_app_r by lia.
  replace (length (heap st) + i - length (heap st))%nat with i by lia.
  rewrite list_lookup_imap, He. simpl.
  assert (readyRead (prepared_socket (bind_succeeds st) w (length (heap st))
                       (length (cells st)) 20054 i e)
          = Some (length (cells st))) as ->
    by (unfold prepared_socket; by destruct (bind_succeeds st _ _ _)).
  simpl. rewrite Hcells, lookup_app_r by lia. rewrite Nat.sub_diag. done.
Qed.
